(** * k-backend: the rate-limiting middleware and the error handler

    A shallow embedding of [src/middleware/rateLimiter.js] and of
    [src/middleware/errorHandler.js], followed by the properties the
    specification states about them.

    JavaScript numbers that the code only ever uses as integers (counts,
    millisecond clocks, HTTP status codes) are [Z].  The in-process
    [Map] and the key space of the shared store are [gmap string _].
    Exceptions are explicit: a synchronous call either returns or throws,
    and the promise of the [async] middleware either fulfils or rejects.

    The store client is the one the module creates with
    [redis.createClient({ host, port })] and whose [connected] flag it reads:
    the client of the [redis] package with the callback interface.  A command
    called without a callback returns at once; its reply, or its failure, is
    for the callback only.  One thing of the host is taken for granted
    throughout: [next] returns to its caller. *)

From Stdlib Require Import ZArith QArith List Lia.
From stdpp Require Import base gmap strings list.

Local Open Scope Z_scope.

(** ** JavaScript truthiness, for the value shapes the code tests *)

Module Js.

(** A number is truthy unless it is [0]; [undefined] is falsy. *)
Definition truthy_num (v : option Z) : bool :=
  match v with
  | Some n => negb (n =? 0)
  | None => false
  end.

(** A string is truthy unless it is empty; [undefined] is falsy. *)
Definition truthy_str (v : option string) : bool :=
  match v with
  | Some s => negb (String.eqb s "")
  | None => false
  end.

(** [v || d] on an optional string. *)
Definition or_str (v : option string) (d : string) : string :=
  match v with
  | Some s => if String.eqb s "" then d else s
  | None => d
  end.

(** [a === b] where [a] may be [undefined] and [b] is a string literal. *)
Definition strict_eq_str (a : option string) (b : string) : bool :=
  match a with
  | Some s => String.eqb s b
  | None => false
  end.

(** The completion of a synchronous call. *)
Inductive Sync (E A : Type) : Type :=
| Ret (a : A)
| Throw (e : E).
Arguments Ret {E A} a.
Arguments Throw {E A} e.

End Js.

(** ** errorHandler.js *)

Module ErrorHandler.

(** One element of [err.errors]. *)
Record ErrItem := { path : string; item_message : string }.

(** An element of the [details] array of a response. *)
Inductive Detail :=
| FieldMessage (field message : string)
| FieldsMessage (fields : list string) (message : string)
| Verbatim (item : ErrItem).

(** The error value handed to [next(err)].  The three [is_*] flags are the
    results of the [instanceof] tests against the Sequelize classes; the
    other fields are the properties [errorHandler] reads, [None] standing
    for [undefined]. *)
Record ErrVal := {
  is_ValidationError : bool;
  is_UniqueConstraintError : bool;
  is_ForeignKeyConstraintError : bool;
  e_name : option string;
  e_statusCode : option Z;
  e_message : option string;
  e_type : option string;
  e_errors : option (list ErrItem);
  e_fields : list string;
  e_code : option string;
  e_stack : option string
}.

(** [new AppError(message, statusCode, type, errors)].  [captured] is the
    text [Error.captureStackTrace] stores in [this.stack]. *)
Definition AppError (captured : string) (message : string) (statusCode : Z)
    (type : string) (errors : list ErrItem) : ErrVal :=
  {| is_ValidationError := false;
     is_UniqueConstraintError := false;
     is_ForeignKeyConstraintError := false;
     e_name := Some "AppError"%string;
     e_statusCode := Some statusCode;
     e_message := Some message;
     e_type := Some type;
     e_errors := Some errors;
     e_fields := [];
     e_code := None;
     e_stack := Some captured |}.

(** A plain [new Error(message)] and the like: no status code. *)
Definition PlainError (captured : string) (message : string) : ErrVal :=
  {| is_ValidationError := false;
     is_UniqueConstraintError := false;
     is_ForeignKeyConstraintError := false;
     e_name := Some "Error"%string;
     e_statusCode := None;
     e_message := Some message;
     e_type := None;
     e_errors := None;
     e_fields := [];
     e_code := None;
     e_stack := Some captured |}.

(** The [error] object of the JSON body; [None] is an absent property. *)
Record ErrorBody := {
  b_type : string;
  b_message : option string;
  b_details : option (list Detail);
  b_stack : option string
}.

(** [res.status(statusCode).json({ error: ... })]. *)
Record Response := { r_status : Z; r_error : ErrorBody }.

Definition map_errors (err : ErrVal) : list Detail :=
  match e_errors err with
  | Some l => List.map (fun e => FieldMessage (path e) (item_message e)) l
  | None => []
  end.

(** The local variables [statusCode, errorMessage, errorType, errors]. *)
Record Locals := {
  statusCode : Z;
  errorMessage : option string;
  errorType : string;
  errors : list Detail
}.

(** The [if / else if] chain of lines 21-72. *)
Definition classify (err : ErrVal) : Locals :=
  if is_ValidationError err then
    {| statusCode := 400; errorMessage := Some "Validation failed"%string;
       errorType := "validation_error"; errors := map_errors err |}
  else if is_UniqueConstraintError err then
    {| statusCode := 409; errorMessage := Some "Duplicate entry"%string;
       errorType := "conflict_error"; errors := map_errors err |}
  else if is_ForeignKeyConstraintError err then
    {| statusCode := 400; errorMessage := Some "Invalid reference"%string;
       errorType := "reference_error";
       errors := [FieldsMessage (e_fields err) "Referenced entity does not exist"] |}
  else if Js.strict_eq_str (e_name err) "JsonWebTokenError"
       || Js.strict_eq_str (e_name err) "TokenExpiredError" then
    {| statusCode := 401;
       errorMessage := Some (if Js.strict_eq_str (e_name err) "TokenExpiredError"
                             then "Token expired" else "Invalid token")%string;
       errorType := "auth_error"; errors := [] |}
  else if Js.truthy_num (e_statusCode err) then
    {| statusCode := default 0 (e_statusCode err);
       errorMessage := e_message err;
       errorType := Js.or_str (e_type err) "custom_error";
       errors := match e_errors err with
                 | Some l => List.map Verbatim l
                 | None => []
                 end |}
  else if Js.strict_eq_str (e_code err) "ECONNREFUSED" then
    {| statusCode := 500; errorMessage := Some "Database connection failed"%string;
       errorType := "database_error"; errors := [] |}
  else
    {| statusCode := 500; errorMessage := Some "Internal Server Error"%string;
       errorType := "server_error"; errors := [] |}.

(** [errorHandler(err, req, res, next)]; [node_env] is
    [process.env.NODE_ENV]. *)
Definition errorHandler (node_env : option string) (err : ErrVal) : Response :=
  let l := classify err in
  let message :=
    if Js.truthy_str (e_message err)
       && negb (Js.strict_eq_str (e_message err) "Internal Server Error")
    then e_message err else errorMessage l in
  {| r_status := statusCode l;
     r_error :=
       {| b_type := errorType l;
          b_message := message;
          b_details := match errors l with
                       | [] => None
                       | _ :: _ => Some (errors l)
                       end;
          b_stack := if Js.strict_eq_str node_env "development"
                        && Js.truthy_str (e_stack err)
                     then e_stack err else None |} |}.

End ErrorHandler.

(** ** The shared counting store

    The store client and the server are not part of the repository.  The
    middleware uses the client through [get], [multi().incr().expire().exec()]
    and the [connected] flag; the specification names the commands
    ([GET key → integer|absent], [INCR key], [EXPIRE key seconds], applied as
    one atomic unit) and describes the counter: created at 1 by the first
    increment, incremented thereafter, gone when its expiry passes.  This
    module is the server side: what the commands do to the keys once they
    arrive.  What the middleware gets back from the client is in
    [RateLimiter.shared_path]. *)

Module SharedStore.

(** Modelled from the spec: the external counter, an integer with an
    optional expiry (a clock value in milliseconds). *)
Record Entry := { value : Z; expireAt : option Z }.

(** Modelled from the spec: the counter expires through the store's own
    time-to-live; it is there up to and including its expiry time. *)
Definition live (now : Z) (e : Entry) : bool :=
  match expireAt e with
  | Some t => now <=? t
  | None => true
  end.

Definition visible (now : Z) (k : string) (s : gmap string Entry) : option Entry :=
  match s !! k with
  | Some e => if live now e then Some e else None
  | None => None
  end.

(** Modelled from the spec: [GET key → integer|absent]. *)
Definition get (now : Z) (k : string) (s : gmap string Entry) : option Z :=
  value <$> visible now k s.

(** The commands queued between [multi()] and [exec()].  The argument of
    [EXPIRE] is the JavaScript number [windowMs / 1000], kept exact. *)
Inductive Command :=
| INCR (k : string)
| EXPIRE (k : string) (seconds : Q).

(** Modelled from the spec: [INCR key] creates a missing counter at 1,
    without expiry, and otherwise adds one and keeps the expiry. *)
Definition incr (now : Z) (k : string) (s : gmap string Entry) : gmap string Entry :=
  match visible now k s with
  | Some e => <[k := {| value := value e + 1; expireAt := expireAt e |}]> s
  | None => <[k := {| value := 1; expireAt := None |}]> s
  end.

Definition integral (q : Q) : bool := Qnum q mod Z.pos (Qden q) =? 0.
Definition whole (q : Q) : Z := Qnum q / Z.pos (Qden q).

(** Modelled from the spec: [EXPIRE key seconds] makes a counter that is
    there live until [now + seconds].  As the store's command reference has
    it, a number of seconds that is not whole is answered with an error and
    changes nothing, and one that is not positive deletes the key. *)
Definition expire (now : Z) (k : string) (seconds : Q)
    (s : gmap string Entry) : gmap string Entry :=
  match visible now k s with
  | Some e =>
      if integral seconds then
        if whole seconds <=? 0 then delete k s
        else <[k := {| value := value e;
                       expireAt := Some (now + 1000 * whole seconds) |}]> s
      else s
  | None => s
  end.

Definition apply (now : Z) (s : gmap string Entry) (c : Command) : gmap string Entry :=
  match c with
  | INCR k => incr now k s
  | EXPIRE k seconds => expire now k seconds s
  end.

(** Modelled from the spec: the queued commands are applied as a single
    atomic unit, one after the other with nothing in between. *)
Definition exec (now : Z) (cmds : list Command) (s : gmap string Entry) : gmap string Entry :=
  fold_left (apply now) cmds s.

End SharedStore.

(** ** rateLimiter.js *)

Module RateLimiter.
Import Js ErrorHandler.

(** What the middleware and the key generators read of a request:
    [req.ip] and, when [req.user] is set, [req.user.id]. *)
Record Req := { ip : string; user : option string }.

(** What an exceeded handler does with [(req, res, next)]. *)
Inductive Effect :=
| CallNext (err : option ErrVal)
| Respond (status : Z) (body : string).

(** How a handler call ends: it returns (a plain value or a promise that
    fulfils), it throws, or it returns a promise that rejects. *)
Inductive HandlerEnd :=
| Returns
| Throws (e : ErrVal)
| ReturnsRejecting (e : ErrVal).

Record HandlerRun := { effects : list Effect; ending : HandlerEnd }.

(** A failure of the shared store during one invocation: of the [get], or
    of the [exec] (with the transaction applied or not before the failure
    was reported).  The client reports it to the callback of the command. *)
Inductive Fault :=
| NoFault
| GetFails (e : ErrVal)
| ExecFails (applied : bool) (e : ErrVal).

(** The surroundings of one invocation: the clock ([Date.now()], also the
    clock of the store), [redisClient && redisClient.connected], the store
    failure if any, and the stack text captured by an error built now. *)
Record Env := {
  now : Z;
  connected : bool;
  fault : Fault;
  captured : string
}.

(** What code called during an invocation can see of its surroundings;
    the state of [redisClient] is private to the module. *)
Record Ambient := { at_time : Z; stack_text : string }.

Definition ambient (env : Env) : Ambient :=
  {| at_time := now env; stack_text := captured env |}.

(** The destructured options, defaults applied. *)
Record Config := {
  windowMs : Z;
  max : Z;
  keyGenerator : Req -> Sync ErrVal string;
  handler : Ambient -> Req -> HandlerRun
}.

(** The [options] argument; [None] is a property left [undefined]. *)
Record Options := {
  opt_windowMs : option Z;
  opt_max : option Z;
  opt_keyGenerator : option (Req -> Sync ErrVal string);
  opt_handler : option (Ambient -> Req -> HandlerRun)
}.

Definition default_keyGenerator (req : Req) : Sync ErrVal string := Ret (ip req).

Definition default_handler (a : Ambient) (req : Req) : HandlerRun :=
  {| effects :=
       [CallNext (Some (AppError (stack_text a)
                          "Too many requests, please try again later"
                          429 "rate_limit_error" []))];
     ending := Returns |}.

Definition resolve (options : Options) : Config :=
  {| windowMs := default (60 * 1000) (opt_windowMs options);
     max := default 60 (opt_max options);
     keyGenerator := default default_keyGenerator (opt_keyGenerator options);
     handler := default default_handler (opt_handler options) |}.

(** An entry of [inMemoryCache]. *)
Record CacheItem := { count : Z; startTime : Z }.

(** The module-level state: the store behind [redisClient] and
    [inMemoryCache]. *)
Record World := {
  store : gmap string SharedStore.Entry;
  inMemoryCache : gmap string CacheItem
}.

Definition with_store (s : gmap string SharedStore.Entry) (w : World) : World :=
  {| store := s; inMemoryCache := inMemoryCache w |}.
Definition with_cache (m : gmap string CacheItem) (w : World) : World :=
  {| store := store w; inMemoryCache := m |}.

(** How control leaves the [try] block. *)
Inductive Exit :=
| ReachNext
| ReturnHandler
| Raise (e : ErrVal).

Definition transaction (c : Config) (key : string) : list SharedStore.Command :=
  [SharedStore.INCR key; SharedStore.EXPIRE key (Qmake (windowMs c) 1000)].

(** [redisClient.get(key)], line 46, called without a callback: the command
    goes out on the connection and the call returns a boolean, whether the
    command was written without being held back; on a connected client it
    was.  The stored count goes to the callback, and there is none. *)
Definition get_returns (env : Env) : bool := connected env.

(** [parseInt] of a boolean reads the text ["true"] or ["false"] and finds
    no digit: the result is [NaN], here [None]. *)
Definition parseInt_boolean (b : bool) : option Z := None.

(** [currentCount && parseInt(currentCount) >= max], line 48, on the value
    [await] hands over, which is the boolean [get] returned; a comparison
    with [NaN] is false. *)
Definition quota_reached (c : Config) (currentCount : bool) : bool :=
  currentCount && match parseInt_boolean currentCount with
                  | Some n => max c <=? n
                  | None => false
                  end.

(** Lines 46-55.  [exec()], called without a callback as well, sends the
    queued transaction and returns; a failure of [get] or of [exec] is
    reported to the missing callback, so nothing is thrown here, and the
    store applies the transaction unless the failure kept it from doing
    so. *)
Definition shared_path (c : Config) (env : Env) (key : string) (w : World) : World * Exit :=
  let currentCount := get_returns env in
  if quota_reached c currentCount then (w, ReturnHandler)
  else
    let s' := SharedStore.exec (now env) (transaction c key) (store w) in
    (match fault env with
     | ExecFails false _ => w
     | _ => with_store s' w
     end, ReachNext).

(** Lines 58-74.  [cacheItem] is the object held by the map when the key
    is there, so the reset of lines 63-64 shows in the map at once; a
    fresh object reaches the map only through [set] on line 74. *)
Definition memory_path (c : Config) (env : Env) (key : string) (w : World) : World * Exit :=
  let held := inMemoryCache w !! key in
  let cacheItem := default {| count := 0; startTime := now env |} held in
  let elapsed := windowMs c <? now env - startTime cacheItem in
  let cacheItem :=
    if elapsed then {| count := 0; startTime := now env |} else cacheItem in
  let m :=
    match held with
    | Some _ => if elapsed then <[key := cacheItem]> (inMemoryCache w)
                else inMemoryCache w
    | None => inMemoryCache w
    end in
  if max c <=? count cacheItem then (with_cache m w, ReturnHandler)
  else
    (with_cache (<[key := {| count := count cacheItem + 1;
                             startTime := startTime cacheItem |}]> m) w,
     ReachNext).

Definition derived_key (c : Config) (req : Req) : Sync ErrVal string :=
  match keyGenerator c req with
  | Ret g => Ret ("ratelimit:" +:+ g)
  | Throw e => Throw e
  end.

(** The [try] block, lines 42-77, up to the point where it calls
    [handler], calls [next] or throws. *)
Definition try_block (c : Config) (env : Env) (req : Req) (w : World) : World * Exit :=
  match derived_key c req with
  | Throw e => (w, Raise e)
  | Ret key =>
      if connected env then shared_path c env key w
      else memory_path c env key w
  end.

(** What the host sees of one invocation. *)
Inductive Event :=
| Exceeded (h : HandlerRun)
| Proceed
| LogError (e : ErrVal).

Inductive Settled :=
| Fulfilled
| Rejected (e : ErrVal).

Record Outcome := { trace : list Event; settled : Settled }.

(** [return handler(req, res, next)] inside [try], in an [async]
    function: a throw of the call is caught; a returned promise is not
    awaited, it settles the promise of the middleware. *)
Definition exceed (h : HandlerRun) : Outcome :=
  match ending h with
  | Returns => {| trace := [Exceeded h]; settled := Fulfilled |}
  | Throws e => {| trace := [Exceeded h; LogError e; Proceed]; settled := Fulfilled |}
  | ReturnsRejecting e => {| trace := [Exceeded h]; settled := Rejected e |}
  end.

Definition admit_outcome : Outcome :=
  {| trace := [Proceed]; settled := Fulfilled |}.

Definition caught (e : ErrVal) : Outcome :=
  {| trace := [LogError e; Proceed]; settled := Fulfilled |}.

Definition Middleware : Type := Env -> Req -> World -> World * Outcome.

(** The function returned by [rateLimiter], lines 40-83. *)
Definition middleware (c : Config) : Middleware := fun env req w =>
  let '(w', exit) := try_block c env req w in
  (w', match exit with
       | ReachNext => admit_outcome
       | ReturnHandler => exceed (handler c (ambient env) req)
       | Raise e => caught e
       end).

(** [rateLimiter(options)]: destructure and return the closure. *)
Definition rateLimiter (options : Options) : Sync ErrVal Middleware :=
  Ret (middleware (resolve options)).

Definition no_options : Options :=
  {| opt_windowMs := None; opt_max := None;
     opt_keyGenerator := None; opt_handler := None |}.

Definition standard_options : Options := no_options.

Definition auth_options : Options :=
  {| opt_windowMs := Some (60 * 1000); opt_max := Some 10;
     opt_keyGenerator := Some (fun req => Ret ("auth:" +:+ ip req));
     opt_handler := None |}.

Definition user_options : Options :=
  {| opt_windowMs := Some (60 * 1000); opt_max := Some 100;
     opt_keyGenerator :=
       Some (fun req => Ret ("user:" +:+ match user req with
                                         | Some id => id
                                         | None => ip req
                                         end));
     opt_handler := None |}.

Definition standardLimiter := rateLimiter standard_options.
Definition authLimiter := rateLimiter auth_options.
Definition userLimiter := rateLimiter user_options.

(** A sequence of invocations of one limiter, in arrival order, each one
    finished before the next begins. *)
Fixpoint run (c : Config) (l : list (Env * Req)) (w : World) : World * list Outcome :=
  match l with
  | [] => (w, [])
  | (env, req) :: l' =>
      let '(w1, o) := middleware c env req w in
      let '(w2, os) := run c l' w1 in
      (w2, o :: os)
  end.

(** Invocations of several limiters of the module, each by its instance,
    in arrival order; they share [inMemoryCache] and the store. *)
Fixpoint run_instances (l : list (Config * Env * Req)) (w : World)
    : World * list Outcome :=
  match l with
  | [] => (w, [])
  | (c, env, req) :: l' =>
      let '(w1, o) := middleware c env req w in
      let '(w2, os) := run_instances l' w1 in
      (w2, o :: os)
  end.

Definition handler_invoked (o : Outcome) : bool :=
  existsb (fun ev => match ev with Exceeded _ => true | _ => false end) (trace o).

Definition proceeded (o : Outcome) : bool :=
  existsb (fun ev => match ev with Proceed => true | _ => false end) (trace o).

Inductive Decision := Admit | Reject.

(** A request is admitted when the middleware calls [next()]. *)
Definition decision (o : Outcome) : Decision :=
  if proceeded o then Admit else Reject.

Definition empty_world : World := {| store := ∅; inMemoryCache := ∅ |}.

End RateLimiter.

(** ** Vocabulary of the properties *)

Module Spec.
Import Js ErrorHandler RateLimiter.

(** An invocation at time [t] with the shared store reachable or not
    ([shared]) and answering without failure. *)
Definition quiet (shared : bool) (cap : string) (t : Z) : Env :=
  {| now := t; connected := shared; fault := NoFault; captured := cap |}.

(** The errors an exceeded handler passed to [next]. *)
Definition forwarded (h : HandlerRun) : list ErrVal :=
  omap (fun ef => match ef with
                  | CallNext (Some err) => Some err
                  | _ => None
                  end) (effects h).

(** The responses [errorHandler] writes for the errors forwarded during
    one invocation. *)
Definition responses (node_env : option string) (o : Outcome) : list Response :=
  List.flat_map (fun ev => match ev with
                           | Exceeded h => List.map (errorHandler node_env) (forwarded h)
                           | _ => []
                           end) (trace o).

(** The body the specification gives for a rejected request. *)
Definition rate_limit_body (stack : option string) : ErrorBody :=
  {| b_type := "rate_limit_error";
     b_message := Some "Too many requests, please try again later"%string;
     b_details := None;
     b_stack := stack |}.

(** The in-memory counter held for key [k], if any, lies between 0 and the
    [max] of the limiter [c]. *)
Definition bounded_at (c : Config) (k : string) (w : World) : Prop :=
  ∀ it, inMemoryCache w !! k = Some it → 0 ≤ count it ≤ max c.

(** Among the invocations [l] of the limiters of the module, the entry of
    key [k] is written by the instance [c] only: every invocation counted
    under [k] is one of [c]. *)
Definition written_by (c : Config) (k : string) (l : list (Config * Env * Req)) : Prop :=
  Forall (λ y, derived_key y.1.1 y.2 = Ret k → y.1.1 = c) l.

(** The store commands seen from one key: what a command finds under the
    key ([seen]), what [INCR] leaves there ([bumped]) and what [EXPIRE]
    leaves there ([expired_to]). *)
Definition seen (now : Z) (held : option SharedStore.Entry) : option SharedStore.Entry :=
  match held with
  | Some e => if SharedStore.live now e then Some e else None
  | None => None
  end.

Definition bumped (now : Z) (held : option SharedStore.Entry) : SharedStore.Entry :=
  match seen now held with
  | Some e => {| SharedStore.value := SharedStore.value e + 1;
                 SharedStore.expireAt := SharedStore.expireAt e |}
  | None => {| SharedStore.value := 1; SharedStore.expireAt := None |}
  end.

Definition expired_to (now : Z) (seconds : Q) (held : option SharedStore.Entry)
    : option SharedStore.Entry :=
  match seen now held with
  | Some e =>
      if SharedStore.integral seconds then
        if SharedStore.whole seconds <=? 0 then None
        else Some {| SharedStore.value := SharedStore.value e;
                     SharedStore.expireAt :=
                       Some (now + 1000 * SharedStore.whole seconds) |}
      else held
  | None => held
  end.

(** The request [x] is counted under key [k]. *)
Definition touches (c : Config) (k : string) (x : Env * Req) : bool :=
  match derived_key c x.2 with
  | Ret key => bool_decide (key = k)
  | Throw _ => false
  end.

(** The outcomes, in the run of [l] from [w], of the requests counted
    under key [k]. *)
Definition observe (c : Config) (k : string) (l : list (Env * Req)) (w : World)
    : list Outcome :=
  omap (λ xo, if touches c k xo.1 then Some xo.2 else None)
       (zip l (snd (run c l w))).

(** A request counted under [key] by the backend [shared], answered
    without store failure, arriving in the window that opens at [t0]. *)
Definition in_window (c : Config) (shared : bool) (key : string) (t0 : Z)
    (x : Env * Req) : Prop :=
  connected x.1 = shared ∧ fault x.1 = NoFault
  ∧ derived_key c x.2 = Ret key
  ∧ t0 ≤ now x.1 ≤ t0 + windowMs c.

(** At [t0] the backend [shared] holds no running window for [key]:
    nothing live in the store; nothing, or an elapsed window, in the map. *)
Definition fresh (c : Config) (shared : bool) (key : string) (t0 : Z)
    (w : World) : Prop :=
  if shared then seen t0 (store w !! key) = None
  else match inMemoryCache w !! key with
       | Some it => windowMs c < t0 - startTime it
       | None => True
       end.

(** The backend [shared] holds count [j] for [key], in a window that
    covers [t0 .. t0 + windowMs]. *)
Definition counted (c : Config) (shared : bool) (key : string) (t0 : Z)
    (j : Z) (w : World) : Prop :=
  if shared then
    ∃ e, store w !! key = Some e ∧ SharedStore.value e = j
         ∧ ∀ x, SharedStore.expireAt e = Some x → t0 + windowMs c ≤ x
  else
    ∃ it, inMemoryCache w !! key = Some it ∧ count it = j ∧ t0 ≤ startTime it.

(** Two worlds hold the same counters for key [k]. *)
Definition agree_at (k : string) (w1 w2 : World) : Prop :=
  inMemoryCache w1 !! k = inMemoryCache w2 !! k ∧ store w1 !! k = store w2 !! k.

End Spec.

(** ** Concrete requests and limiters for the examples *)

Module Examples.
Import Js ErrorHandler RateLimiter.

(** Two callers. *)
Definition a_request : Req := {| ip := "203.0.113.7"; user := None |}.

Definition b_request : Req := {| ip := "198.51.100.9"; user := Some "42"%string |}.

(** The key the default generator derives for [a_request]. *)
Definition a_key : string := "ratelimit:203.0.113.7".

(** A captured stack text, and a connection error of the store client. *)
Definition a_stack : string := "AppError: Too many requests, please try again later".

Definition refused : ErrVal := PlainError "Error: connect ECONNREFUSED" "connect ECONNREFUSED".

(** Limiters with the default key generator and handler. *)
Definition one_per_minute : Options :=
  {| opt_windowMs := None; opt_max := Some 1;
     opt_keyGenerator := None; opt_handler := None |}.

Definition two_per_second : Options :=
  {| opt_windowMs := Some 1000; opt_max := Some 2;
     opt_keyGenerator := None; opt_handler := None |}.

Definition two_per_minute : Options :=
  {| opt_windowMs := Some (60 * 1000); opt_max := Some 2;
     opt_keyGenerator := None; opt_handler := None |}.

(** A configuration outside the documented ranges. *)
Definition bad_options : Options :=
  {| opt_windowMs := Some (-1000); opt_max := Some 0;
     opt_keyGenerator := None; opt_handler := None |}.




(** A handler that throws before it answers or calls [next]. *)
Definition failing_handler (a : Ambient) (req : Req) : HandlerRun :=
  {| effects := []; ending := Throws refused |}.

Definition failing_handler_options : Options :=
  {| opt_windowMs := Some 1000; opt_max := Some 2;
     opt_keyGenerator := None; opt_handler := Some failing_handler |}.

(** A store that fails to answer [get], and one whose [exec] fails with
    nothing applied. *)
Definition get_failing (t : Z) : Env :=
  {| now := t; connected := true; fault := GetFails refused; captured := a_stack |}.

Definition exec_failing (t : Z) : Env :=
  {| now := t; connected := true; fault := ExecFails false refused;
     captured := a_stack |}.

End Examples.

(** ** app.js and the routers: where the limiters and the error handlers stand *)

Module App.
Import Js ErrorHandler RateLimiter Spec.

(** [notFoundHandler(req, res, next)]: the error it hands to [next];
    [originalUrl] is [req.originalUrl]. *)
Definition notFoundHandler (captured originalUrl : string) : ErrVal :=
  AppError captured ("Not found - " +:+ originalUrl) 404 "not_found" [].

(** What becomes of a request in a chain of limiters: it reaches what comes
    after them, it is answered by [errorHandler], or it is left with an
    exceeded handler that neither called [next] nor passed an error on. *)
Inductive Served :=
| Reached
| Answered (r : Response)
| Unanswered.

(** The limiters mounted with [app.use] and [router.use] run in mounting
    order, each at its own clock reading: [next()] hands the request to the
    next one, [next(err)] hands [err] to [errorHandler], mounted last. *)
Fixpoint chain (node_env : option string) (stages : list (Config * Env))
    (req : Req) (w : World) : World * Served :=
  match stages with
  | [] => (w, Reached)
  | (c, env) :: rest =>
      let '(w1, o) := middleware c env req w in
      if proceeded o then chain node_env rest req w1
      else (w1, match responses node_env o with
                | r :: _ => Answered r
                | [] => Unanswered
                end)
  end.

(** Requests served one after the other, each through its chain. *)
Fixpoint serve (node_env : option string)
    (l : list (list (Config * Env) * Req)) (w : World) : World * list Served :=
  match l with
  | [] => (w, [])
  | (stages, req) :: l' =>
      let '(w1, s) := chain node_env stages req w in
      let '(w2, ss) := serve node_env l' w1 in
      (w2, s :: ss)
  end.

(** A limiter mounted twice on the way of a request, as [standardLimiter]
    is for every route of the users, videos and comments routers: once by
    [app.use(standardLimiter)] and once by [router.use(standardLimiter)]. *)
Definition mounted_twice (c : Config) (x : Env * Env * Req) : list (Config * Env) * Req :=
  ([(c, x.1.1); (c, x.1.2)], x.2).

(** The identity [userLimiter] counts a request under. *)
Definition identity (req : Req) : string :=
  match user req with
  | Some id => id
  | None => ip req
  end.

(** The status and type of a refusal by a limiter. *)
Definition too_many (s : Served) : Prop :=
  ∃ r, s = Answered r ∧ r_status r = 429 ∧ b_type (r_error r) = "rate_limit_error"%string.

(** A request counted under [key] by the in-memory map. *)
Definition on_memory (c : Config) (key : string) (x : Env * Req) : Prop :=
  connected x.1 = false ∧ derived_key c x.2 = Ret key.

(** Both passes of a request through a limiter mounted twice are counted
    under [key] by the backend [shared], in the window that opens at [t0]. *)
Definition twice_in_window (c : Config) (shared : bool) (key : string) (t0 : Z)
    (x : Env * Env * Req) : Prop :=
  in_window c shared key t0 (x.1.1, x.2) ∧ in_window c shared key t0 (x.1.2, x.2).

(** The backend [shared] has counted [j] requests for [key] in the window
    that opens at [t0]: none yet in a fresh window, or [j] of them. *)
Definition tally (c : Config) (shared : bool) (key : string) (t0 : Z)
    (j : Z) (w : World) : Prop :=
  (j = 0 ∧ fresh c shared key t0 w) ∨ (0 < j ∧ counted c shared key t0 j w).

(** Two limiters in a row on the way of a request, as [standardLimiter] and
    [authLimiter] are for the routes under [/api/auth]. *)
Definition mounted_in_row (c1 c2 : Config) (x : Env * Env * Req)
    : list (Config * Env) * Req :=
  ([(c1, x.1.1); (c2, x.1.2)], x.2).

(** The first pass of a request is counted under [k1] by the first limiter
    and the second pass under [k2] by the second, each in its window opening
    at [t0]. *)
Definition row_in_window (c1 c2 : Config) (shared : bool) (k1 k2 : string)
    (t0 : Z) (x : Env * Env * Req) : Prop :=
  in_window c1 shared k1 t0 (x.1.1, x.2) ∧ in_window c2 shared k2 t0 (x.1.2, x.2).

(** The [catch] block of [updateUserProfile] in userController.js (lines
    112-120): the error it hands to [next], or the [TypeError] thrown out of
    it when [error.errors[0]] is not there to read [path] from. *)
Definition update_profile_catch (captured : string) (error : ErrVal)
    : Sync ErrVal ErrVal :=
  if strict_eq_str (e_name error) "SequelizeUniqueConstraintError" then
    match e_errors error with
    | Some (first :: _) =>
        if String.eqb (path first) "username"
        then Ret (AppError captured "Username already taken" 409 "conflict_error" [])
        else Ret error
    | Some [] | None =>
        Throw (PlainError captured "Cannot read properties of undefined (reading 'path')")
    end
  else Ret error.

(** The error [jsonwebtoken] throws for a token past its expiry. *)
Definition expired_token : ErrVal :=
  {| is_ValidationError := false;
     is_UniqueConstraintError := false;
     is_ForeignKeyConstraintError := false;
     e_name := Some "TokenExpiredError"%string;
     e_statusCode := None;
     e_message := Some "jwt expired"%string;
     e_type := None;
     e_errors := None;
     e_fields := [];
     e_code := None;
     e_stack := Some "TokenExpiredError: jwt expired"%string |}.

(** A limiter keyed like [authLimiter], with a quota of one. *)
Definition one_per_auth : Options :=
  {| opt_windowMs := Some (60 * 1000); opt_max := Some 1;
     opt_keyGenerator := opt_keyGenerator auth_options;
     opt_handler := None |}.

(** The error Sequelize raises for a second row with a taken value in the
    unique column [column]. *)
Definition unique_violation (column : string) : ErrVal :=
  {| is_ValidationError := true;
     is_UniqueConstraintError := true;
     is_ForeignKeyConstraintError := false;
     e_name := Some "SequelizeUniqueConstraintError"%string;
     e_statusCode := None;
     e_message := Some "Validation error"%string;
     e_type := None;
     e_errors := Some [{| path := column; item_message := column +:+ " must be unique" |}];
     e_fields := [column];
     e_code := None;
     e_stack := Some "SequelizeUniqueConstraintError: Validation error"%string |}.

End App.

(** ** Properties *)

Import Js ErrorHandler RateLimiter Spec Examples.

Section Invocation.
Variables (c : Config) (env : Env) (req : Req) (w : World).

Lemma middleware_unfold :
  middleware c env req w =
    (fst (try_block c env req w),
     match snd (try_block c env req w) with
     | ReachNext => admit_outcome
     | ReturnHandler => exceed (handler c (ambient env) req)
     | Raise e => caught e
     end).
Proof. unfold middleware. by destruct (try_block c env req w). Qed.

Lemma try_block_key key :
  derived_key c req = Ret key →
  try_block c env req w =
    if connected env then shared_path c env key w else memory_path c env key w.
Proof. unfold try_block. by intros ->. Qed.

Lemma try_block_throw e :
  derived_key c req = Throw e → try_block c env req w = (w, Raise e).
Proof. unfold try_block. by intros ->. Qed.

Lemma exceed_invoked h : handler_invoked (exceed h) = true.
Proof. unfold exceed. by destruct (ending h). Qed.

Lemma exceed_settled h :
  settled (exceed h) = match ending h with
                       | ReturnsRejecting e => Rejected e
                       | _ => Fulfilled
                       end.
Proof. unfold exceed. by destruct (ending h). Qed.

End Invocation.

(** *** The two counting paths, case by case *)

Section Paths.
Variables (c : Config) (env : Env) (key : string) (w : World).

Lemma with_cache_same : with_cache (inMemoryCache w) w = w.
Proof. by destruct w. Qed.

Lemma with_store_same : with_store (store w) w = w.
Proof. by destruct w. Qed.

(** The key is not in the map: a fresh object at count 0. *)
Lemma memory_path_absent :
  inMemoryCache w !! key = None →
  memory_path c env key w =
    if max c <=? 0 then (w, ReturnHandler)
    else (with_cache (<[key := {| count := 1; startTime := now env |}]>
                        (inMemoryCache w)) w, ReachNext).
Proof.
  intros H. unfold memory_path. rewrite H. simpl.
  rewrite with_cache_same.
  by destruct (windowMs c <? now env - now env).
Qed.

(** The key is in the map and its window has not elapsed. *)
Lemma memory_path_within it :
  inMemoryCache w !! key = Some it →
  now env - startTime it ≤ windowMs c →
  memory_path c env key w =
    if max c <=? count it then (w, ReturnHandler)
    else (with_cache (<[key := {| count := count it + 1;
                                   startTime := startTime it |}]>
                        (inMemoryCache w)) w, ReachNext).
Proof.
  intros H Hin. unfold memory_path. rewrite H. simpl.
  replace (windowMs c <? now env - startTime it) with false
    by (symmetry; apply Z.ltb_ge; lia).
  by rewrite with_cache_same.
Qed.

(** The key is in the map and its window has elapsed: the held object is
    reset in place, then counted. *)
Lemma memory_path_elapsed it :
  inMemoryCache w !! key = Some it →
  windowMs c < now env - startTime it →
  memory_path c env key w =
    if max c <=? 0
    then (with_cache (<[key := {| count := 0; startTime := now env |}]>
                        (inMemoryCache w)) w, ReturnHandler)
    else (with_cache (<[key := {| count := 1; startTime := now env |}]>
                        (inMemoryCache w)) w, ReachNext).
Proof.
  intros H Hout. unfold memory_path. rewrite H. simpl.
  replace (windowMs c <? now env - startTime it) with true
    by (symmetry; apply Z.ltb_lt; lia).
  simpl. by rewrite insert_insert_eq.
Qed.

(** The test of line 48 never holds. *)
Lemma quota_never_reached b : quota_reached c b = false.
Proof. unfold quota_reached, parseInt_boolean. by destruct b. Qed.

(** The shared path sends its transaction and goes on to [next()]. *)
Lemma shared_path_unfold :
  shared_path c env key w =
    (match fault env with
     | ExecFails false _ => w
     | _ => with_store (SharedStore.exec (now env) (transaction c key) (store w)) w
     end, ReachNext).
Proof. unfold shared_path. by rewrite quota_never_reached. Qed.

End Paths.

(** *** Rejected requests and the error handler *)

(** C8, as the specification words it, fails when [NODE_ENV] is
    [development]: the second request of a caller within a minute, under a
    limiter with [max = 1] and the default handler, is answered with status
    429 and a body that carries a [stack] property besides [type] and
    [message]. *)
Lemma rejection_body_in_development :
  List.map (responses (Some "development"%string))
    (snd (run (resolve one_per_minute)
            [(quiet false a_stack 0, a_request); (quiet false a_stack 1, a_request)]
            empty_world))
  = [ []; [ {| r_status := 429; r_error := rate_limit_body (Some a_stack) |} ] ]
  ∧ rate_limit_body (Some a_stack) ≠ rate_limit_body None.
Proof. split; [by vm_compute | discriminate]. Qed.

(** C8, amended: with the default exceeded handler, every invocation that
    calls the handler forwards exactly one error, and [errorHandler] answers
    it with status 429 and the body
    [{ error: { type: "rate_limit_error", message: "Too many requests, please
    try again later" } }]; the error object has one more property, [stack],
    exactly when [NODE_ENV] is [development] and the captured stack text is
    not empty. *)
Theorem default_rejection_response (o : Options) (env : Env) (req : Req)
    (w : World) (node_env : option string) :
  opt_handler o = None →
  handler_invoked (snd (middleware (resolve o) env req w)) = true →
  responses node_env (snd (middleware (resolve o) env req w)) =
    [ {| r_status := 429;
         r_error := rate_limit_body
                      (if strict_eq_str node_env "development"
                          && negb (String.eqb (captured env) "")
                       then Some (captured env) else None) |} ].
Proof.
  intros Hh. rewrite middleware_unfold. cbn [snd].
  destruct (snd (try_block (resolve o) env req w)); [discriminate | | discriminate].
  intros _. unfold resolve at 1. cbn [handler]. rewrite Hh. cbn.
  unfold errorHandler, rate_limit_body. cbn. done.
Qed.

Lemma default_rejection_response_witness :
  opt_handler one_per_minute = None
  ∧ handler_invoked
      (snd (middleware (resolve one_per_minute) (quiet false a_stack 1) a_request
              (fst (middleware (resolve one_per_minute) (quiet false a_stack 0)
                      a_request empty_world)))) = true
  ∧ responses None
      (snd (middleware (resolve one_per_minute) (quiet false a_stack 1) a_request
              (fst (middleware (resolve one_per_minute) (quiet false a_stack 0)
                      a_request empty_world))))
    = [ {| r_status := 429; r_error := rate_limit_body None |} ].
Proof.
  split; [reflexivity |]. split; [by vm_compute |].
  apply (default_rejection_response one_per_minute (quiet false a_stack 1) a_request
           _ None); [reflexivity | by vm_compute].
Defined.

(** *** Construction *)

(** C6 fails on the code: [rateLimiter] given [max = 0] and
    [windowMs = -1000] returns a middleware and does not throw. *)
Lemma rateLimiter_accepts_bad_options :
  max (resolve bad_options) = 0
  ∧ windowMs (resolve bad_options) = -1000
  ∧ rateLimiter bad_options = Ret (middleware (resolve bad_options))
  ∧ ∀ e, rateLimiter bad_options ≠ Throw e.
Proof. repeat split; discriminate. Qed.

(** C6, amended: [rateLimiter] checks nothing; for every options value,
    non-positive [max] or [windowMs] included, it returns the middleware.  A
    non-positive [max] shows at request time only: with the in-memory backend
    every request whose stored count, if any, is not negative goes to the
    exceeded handler. *)
Theorem rateLimiter_checks_nothing (o : Options) :
  ∃ m : Middleware,
    rateLimiter o = Ret m
    ∧ ∀ env req w key,
        max (resolve o) ≤ 0 →
        connected env = false →
        derived_key (resolve o) req = Ret key →
        (∀ it, inMemoryCache w !! key = Some it → 0 ≤ count it) →
        handler_invoked (snd (m env req w)) = true.
Proof.
  exists (middleware (resolve o)). split; [reflexivity |].
  intros env req w key Hmax Hc Hk Hcount.
  rewrite middleware_unfold, (try_block_key _ _ _ _ key Hk), Hc. cbn [snd].
  destruct (inMemoryCache w !! key) as [it|] eqn:Hit.
  - specialize (Hcount it eq_refl).
    destruct (Z_lt_le_dec (windowMs (resolve o)) (now env - startTime it)).
    + rewrite (memory_path_elapsed _ _ _ _ it) by done.
      destruct (max (resolve o) <=? 0) eqn:E; [apply exceed_invoked | lia].
    + rewrite (memory_path_within _ _ _ _ it) by done.
      destruct (max (resolve o) <=? count it) eqn:E; [apply exceed_invoked | lia].
  - rewrite memory_path_absent by done.
    destruct (max (resolve o) <=? 0) eqn:E; [apply exceed_invoked | lia].
Qed.

(** *** The store, key by key *)

Section StoreLemmas.
Variables (now : Z) (k : string).
Implicit Types s : gmap string SharedStore.Entry.

Lemma visible_seen s : SharedStore.visible now k s = seen now (s !! k).
Proof. reflexivity. Qed.

Lemma incr_lookup_eq s : SharedStore.incr now k s !! k = Some (bumped now (s !! k)).
Proof.
  unfold SharedStore.incr, bumped. rewrite visible_seen.
  destruct (seen now (s !! k)); apply lookup_insert_eq.
Qed.

Lemma incr_lookup_ne s k' : k ≠ k' → SharedStore.incr now k s !! k' = s !! k'.
Proof.
  intros Hne. unfold SharedStore.incr.
  destruct (SharedStore.visible now k s); by apply lookup_insert_ne.
Qed.

Lemma expire_lookup_eq s q :
  SharedStore.expire now k q s !! k = expired_to now q (s !! k).
Proof.
  unfold SharedStore.expire, expired_to. rewrite visible_seen.
  destruct (seen now (s !! k)); [| done].
  destruct (SharedStore.integral q); [| done].
  destruct (SharedStore.whole q <=? 0);
    [apply lookup_delete_eq | apply lookup_insert_eq].
Qed.

Lemma expire_lookup_ne s q k' :
  k ≠ k' → SharedStore.expire now k q s !! k' = s !! k'.
Proof.
  intros Hne. unfold SharedStore.expire.
  destruct (SharedStore.visible now k s); [| done].
  destruct (SharedStore.integral q); [| done].
  destruct (SharedStore.whole q <=? 0);
    [by apply lookup_delete_ne | by apply lookup_insert_ne].
Qed.

Lemma transaction_lookup_eq s c :
  SharedStore.exec now (transaction c k) s !! k =
    expired_to now (Qmake (windowMs c) 1000) (Some (bumped now (s !! k))).
Proof.
  unfold SharedStore.exec, transaction. cbn [fold_left SharedStore.apply].
  by rewrite expire_lookup_eq, incr_lookup_eq.
Qed.

Lemma transaction_lookup_ne s c k' :
  k ≠ k' → SharedStore.exec now (transaction c k) s !! k' = s !! k'.
Proof.
  intros Hne. unfold SharedStore.exec, transaction.
  cbn [fold_left SharedStore.apply].
  by rewrite expire_lookup_ne, incr_lookup_ne.
Qed.

End StoreLemmas.

(** *** Failures of the shared store *)

Lemma shared_path_cache c env key w :
  inMemoryCache (fst (shared_path c env key w)) = inMemoryCache w.
Proof. rewrite shared_path_unfold. by destruct (fault env) as [| |[] ?]. Qed.

Lemma memory_path_store c env key w :
  store (fst (memory_path c env key w)) = store w.
Proof. unfold memory_path. by destruct (max c <=? _). Qed.

Lemma middleware_connected c env req w key :
  derived_key c req = Ret key →
  connected env = true →
  middleware c env req w =
    (match fault env with
     | ExecFails false _ => w
     | _ => with_store (SharedStore.exec (now env) (transaction c key) (store w)) w
     end, {| trace := [Proceed]; settled := Fulfilled |}).
Proof.
  intros Hk Hc.
  by rewrite middleware_unfold, (try_block_key _ _ _ _ key Hk), Hc, shared_path_unfold.
Qed.

(** C3 is not what the code does for a failure of the shared store.  The
    store is connected and its [get] fails, under the default limiter, for a
    first request at time 5: [next()] is called and the promise fulfils, but
    the middleware logs no error, and the transaction, sent all the same,
    leaves the key at count 1.  When the [exec] fails with nothing applied, the request
    is admitted as silently and nothing is counted.  The [catch] block of
    lines 78-82, which logs, is not reached: [get] and [exec] are called
    without a callback and throw nothing. *)
Lemma store_failure_is_not_logged :
  snd (middleware (resolve no_options) (get_failing 5) a_request empty_world)
  = {| trace := [Proceed]; settled := Fulfilled |}
  ∧ store (fst (middleware (resolve no_options) (get_failing 5) a_request empty_world))
      !! a_key
    = Some {| SharedStore.value := 1; SharedStore.expireAt := Some 60005 |}
  ∧ middleware (resolve no_options) (exec_failing 5) a_request empty_world
    = (empty_world, {| trace := [Proceed]; settled := Fulfilled |}).
Proof. repeat split; by vm_compute. Qed.

(** *** The shared-store path *)

(** C4 is not what the code does when the stored count has reached [max].
    Under a limiter with [max = 2] and a window of one minute, two requests
    of one caller at 0 s and 1 s leave the count of the key at 2; for the
    third request, at 2 s, the store holds a count that is present and at
    least [max], yet the exceeded handler is not called: the counter is
    incremented to 3, its expiry is set again, and [next()] is called.  The
    count that [get] asks for goes to a callback the call does not pass;
    the test of line 48 is made on the boolean [get] returns. *)
Lemma store_path_ignores_stored_count :
  SharedStore.get 2000 a_key
    (store (fst (run (resolve two_per_minute)
                   [(quiet true a_stack 0, a_request); (quiet true a_stack 1000, a_request)]
                   empty_world)))
  = Some (max (resolve two_per_minute))
  ∧ snd (middleware (resolve two_per_minute) (quiet true a_stack 2000) a_request
           (fst (run (resolve two_per_minute)
                   [(quiet true a_stack 0, a_request); (quiet true a_stack 1000, a_request)]
                   empty_world)))
    = {| trace := [Proceed]; settled := Fulfilled |}
  ∧ store (fst (middleware (resolve two_per_minute) (quiet true a_stack 2000) a_request
                  (fst (run (resolve two_per_minute)
                          [(quiet true a_stack 0, a_request);
                           (quiet true a_stack 1000, a_request)]
                          empty_world)))) !! a_key
    = Some {| SharedStore.value := 3; SharedStore.expireAt := Some 62000 |}.
Proof. repeat split; by vm_compute. Qed.

(** *** Window rollover in the in-memory backend *)


(** *** Totality and the fate of thrown errors *)



Lemma run_cons c env req l w :
  run c ((env, req) :: l) w =
    (fst (run c l (fst (middleware c env req w))),
     snd (middleware c env req w) :: snd (run c l (fst (middleware c env req w)))).
Proof.
  cbn [run]. destruct (middleware c env req w) as [w1 o]. cbn [fst snd].
  by destruct (run c l w1).
Qed.

(** *** Keys are counted apart *)

Section Frame.
Variables (c : Config) (env : Env).

Lemma memory_path_shape key w :
  fst (memory_path c env key w) = w
  ∨ ∃ v, fst (memory_path c env key w)
         = with_cache (<[key := v]> (inMemoryCache w)) w.
Proof.
  destruct (inMemoryCache w !! key) as [it|] eqn:Hit.
  - destruct (Z_lt_le_dec (windowMs c) (now env - startTime it)).
    + rewrite (memory_path_elapsed _ _ _ _ it) by done.
      destruct (max c <=? 0); right; eauto.
    + rewrite (memory_path_within _ _ _ _ it) by done.
      destruct (max c <=? count it); [by left | right; eauto].
  - rewrite memory_path_absent by done.
    destruct (max c <=? 0); [by left | right; eauto].
Qed.

Lemma shared_path_shape key w :
  fst (shared_path c env key w) = w
  ∨ fst (shared_path c env key w)
    = with_store (SharedStore.exec (now env) (transaction c key) (store w)) w.
Proof. rewrite shared_path_unfold. destruct (fault env) as [| |[] ?]; auto. Qed.

Lemma try_block_frame req w key k :
  derived_key c req = Ret key → k ≠ key →
  agree_at k (fst (try_block c env req w)) w.
Proof.
  intros Hk Hne. rewrite (try_block_key _ _ _ _ key Hk).
  destruct (connected env).
  - destruct (shared_path_shape key w) as [-> | ->]; [done |].
    split; [done |]. cbn [store with_store]. by apply transaction_lookup_ne.
  - destruct (memory_path_shape key w) as [-> | [v ->]]; [done |].
    split; [| done]. cbn. by apply lookup_insert_ne.
Qed.

(** The exit of the [try] block and the counters left under the key of the
    request depend on the counters found under that key only. *)
Lemma try_block_local req w1 w2 key :
  derived_key c req = Ret key →
  agree_at key w1 w2 →
  snd (try_block c env req w1) = snd (try_block c env req w2)
  ∧ agree_at key (fst (try_block c env req w1)) (fst (try_block c env req w2)).
Proof.
  intros Hk Hag. pose proof Hag as [Hm Hs].
  rewrite !(try_block_key _ _ _ _ key Hk).
  destruct (connected env).
  - rewrite !shared_path_unfold.
    assert (agree_at key
              (with_store (SharedStore.exec (now env) (transaction c key) (store w1)) w1)
              (with_store (SharedStore.exec (now env) (transaction c key) (store w2)) w2))
      as Hexec.
    { split; [done |]. cbn [store with_store].
      by rewrite !transaction_lookup_eq, Hs. }
    destruct (fault env) as [| |[] ?].
    all: done.
  - destruct (inMemoryCache w1 !! key) as [it|] eqn:Hit; symmetry in Hm.
    + destruct (Z_lt_le_dec (windowMs c) (now env - startTime it)).
      * rewrite !(memory_path_elapsed _ _ _ _ it) by done.
        destruct (max c <=? 0); (split; [done |]);
          (split; [cbn; by rewrite !lookup_insert_eq | done]).
      * rewrite !(memory_path_within _ _ _ _ it) by done.
        destruct (max c <=? count it); [done |]. split; [done |].
        split; [cbn; by rewrite !lookup_insert_eq | done].
    + rewrite !memory_path_absent by done.
      destruct (max c <=? 0); [done |]. split; [done |].
      split; [cbn; by rewrite !lookup_insert_eq | done].
Qed.

End Frame.

Lemma agree_at_trans k w1 w2 w3 : agree_at k w1 w2 → agree_at k w2 w3 → agree_at k w1 w3.
Proof. intros [? ?] [? ?]. split; congruence. Qed.

Lemma middleware_off_key c k x w :
  touches c k x = false → agree_at k (fst (middleware c x.1 x.2 w)) w.
Proof.
  intros Ht. rewrite middleware_unfold. cbn [fst]. unfold touches in Ht.
  destruct (derived_key c x.2) as [key|e] eqn:Hk.
  - apply (try_block_frame _ _ _ _ key); [done |].
    intros ->. by rewrite bool_decide_eq_false in Ht.
  - by rewrite (try_block_throw _ _ _ _ e).
Qed.

Lemma middleware_on_key c k x w1 w2 :
  touches c k x = true → agree_at k w1 w2 →
  snd (middleware c x.1 x.2 w1) = snd (middleware c x.1 x.2 w2)
  ∧ agree_at k (fst (middleware c x.1 x.2 w1)) (fst (middleware c x.1 x.2 w2)).
Proof.
  intros Ht Hag. rewrite !middleware_unfold. cbn [fst snd]. unfold touches in Ht.
  destruct (derived_key c x.2) as [key|e] eqn:Hk; [| done].
  apply bool_decide_eq_true in Ht as ->.
  destruct (try_block_local c x.1 x.2 w1 w2 k Hk Hag) as [-> ?]. done.
Qed.

Lemma observe_cons c k x l w :
  observe c k (x :: l) w =
    (if touches c k x then [snd (middleware c x.1 x.2 w)] else [])
    ++ observe c k l (fst (middleware c x.1 x.2 w)).
Proof.
  unfold observe. destruct x as [env req]. rewrite run_cons. cbn.
  by destruct (touches c k (env, req)).
Qed.

Lemma observe_filter c k l : ∀ w w',
  agree_at k w w' →
  observe c k l w = observe c k (filter (λ x, touches c k x = true) l) w'
  ∧ agree_at k (fst (run c l w))
      (fst (run c (filter (λ x, touches c k x = true) l) w')).
Proof.
  induction l as [|x l IH]; intros w w' Hag; [done |].
  destruct (touches c k x) eqn:Ht.
  - rewrite filter_cons_True by done. rewrite !observe_cons, Ht.
    destruct x as [env req]. rewrite !run_cons. cbn [fst].
    destruct (middleware_on_key c k (env, req) w w' Ht Hag) as [Ho Hag'].
    cbn [fst snd] in *. rewrite Ho.
    destruct (IH _ _ Hag') as [-> ?]. done.
  - rewrite filter_cons_False by (by rewrite Ht).
    rewrite observe_cons, Ht. destruct x as [env req]. rewrite run_cons.
    cbn [fst app]. apply IH.
    eapply agree_at_trans; [| exact Hag].
    by apply (middleware_off_key c k (env, req)).
Qed.

(** C7: an invocation counted under one key leaves the in-memory entry and
    the store entry of every other key as they were, in both backends; and
    two runs that start from worlds holding the same counters for a key [k]
    and contain the same requests for [k], whatever the traffic for other
    keys, give the requests for [k] the same outcomes and end holding the
    same counters for [k]. *)
Theorem keys_do_not_interfere (c : Config) :
  (∀ env req w key k,
     derived_key c req = Ret key → k ≠ key →
     inMemoryCache (fst (middleware c env req w)) !! k = inMemoryCache w !! k
     ∧ store (fst (middleware c env req w)) !! k = store w !! k)
  ∧ (∀ k l1 l2 w1 w2,
       agree_at k w1 w2 →
       filter (λ x, touches c k x = true) l1 = filter (λ x, touches c k x = true) l2 →
       observe c k l1 w1 = observe c k l2 w2
       ∧ List.map decision (observe c k l1 w1) = List.map decision (observe c k l2 w2)
       ∧ agree_at k (fst (run c l1 w1)) (fst (run c l2 w2))).
Proof.
  split.
  - intros env req w key k Hk Hne. rewrite middleware_unfold. cbn [fst].
    by apply (try_block_frame _ _ _ _ key).
  - intros k l1 l2 w1 w2 Hag Hf.
    destruct (observe_filter c k l1 w1 w2 Hag) as [H1 A1].
    destruct (observe_filter c k l2 w2 w2) as [H2 A2]; [done |].
    rewrite Hf in H1, A1.
    assert (observe c k l1 w1 = observe c k l2 w2) as E by congruence.
    split; [done |]. split; [by rewrite E |].
    eapply agree_at_trans; [exact A1 |].
    destruct A2 as [? ?]. split; congruence.
Qed.

(** *** The bound on in-memory counters *)

(** The limiter [c] keeps the bound on the entry of [k], whatever key it
    counts the request under. *)
Lemma middleware_keeps_bound c k env req w :
  bounded_at c k w → bounded_at c k (fst (middleware c env req w)).
Proof.
  intros Hinv. rewrite middleware_unfold. cbn [fst]. unfold try_block.
  destruct (derived_key c req) as [key|e]; [| done].
  destruct (connected env).
  { intros it. rewrite shared_path_cache. apply Hinv. }
  destruct (decide (key = k)) as [-> | Hne].
  - destruct (inMemoryCache w !! k) as [held|] eqn:Hheld.
    + pose proof (Hinv held Hheld) as Hb.
      destruct (Z_lt_le_dec (windowMs c) (now env - startTime held)).
      * rewrite (memory_path_elapsed _ _ _ _ held) by done.
        destruct (max c <=? 0) eqn:E; intros it; cbn;
          rewrite lookup_insert_eq; intros [= <-]; cbn; lia.
      * rewrite (memory_path_within _ _ _ _ held) by done.
        destruct (max c <=? count held) eqn:E; [done |].
        intros it; cbn. rewrite lookup_insert_eq; intros [= <-]; cbn; lia.
    + rewrite memory_path_absent by done.
      destruct (max c <=? 0) eqn:E; [done |].
      intros it; cbn. rewrite lookup_insert_eq; intros [= <-]; cbn; lia.
  - destruct (memory_path_shape c env key w) as [-> | [v ->]]; [done |].
    intros it. cbn. rewrite lookup_insert_ne by done. apply Hinv.
Qed.

(** An invocation that is not counted under [k], of any limiter, leaves
    the entry of [k] as it was. *)
Lemma middleware_elsewhere c k env req w :
  derived_key c req ≠ Ret k →
  inMemoryCache (fst (middleware c env req w)) !! k = inMemoryCache w !! k.
Proof.
  intros Hk. rewrite middleware_unfold. cbn [fst].
  destruct (derived_key c req) as [key|e] eqn:Hkey.
  - apply (try_block_frame c env req w key k Hkey). by intros ->.
  - by rewrite (try_block_throw _ _ _ _ e).
Qed.

Lemma run_instances_cons c env req l w :
  run_instances ((c, env, req) :: l) w =
    (fst (run_instances l (fst (middleware c env req w))),
     snd (middleware c env req w)
     :: snd (run_instances l (fst (middleware c env req w)))).
Proof.
  cbn [run_instances]. destruct (middleware c env req w) as [w1 o]. cbn [fst snd].
  by destruct (run_instances l w1).
Qed.

Lemma run_instances_keeps_bound c k l : ∀ w,
  written_by c k l → bounded_at c k w → bounded_at c k (fst (run_instances l w)).
Proof.
  induction l as [|[[c' env] req] l IH]; intros w Hall Hinv; [done |].
  apply Forall_cons in Hall as [Hown Hall]. cbn [fst snd] in Hown.
  rewrite run_instances_cons. cbn [fst]. apply IH; [done |].
  assert (derived_key c' req = Ret k ∨ derived_key c' req ≠ Ret k) as [Hk | Hk].
  { destruct (derived_key c' req) as [key|e]; [| by right].
    destruct (decide (key = k)) as [-> | Hne]; [by left | right; congruence]. }
  - rewrite (Hown Hk). by apply middleware_keeps_bound.
  - intros it. rewrite middleware_elsewhere by done. apply Hinv.
Qed.

(** C9: the limiters of the module count in one map.  For a limiter [c] and
    a key [k] whose entry is written, among the invocations served, by [c]
    only, the bound [0 ≤ count ≤ max] on the entry of [k] holds after every
    invocation of any limiter, once it holds at the start; an invocation of
    [c] that finds the entry at [max] inside its window leaves the map and
    the store as they are and calls the exceeded handler, and one that finds
    the window elapsed restarts the entry from count 0, at [now]. *)
Theorem counters_stay_bounded (c : Config) (k : string)
    (l : list (Config * Env * Req)) (w : World) :
  written_by c k l →
  bounded_at c k w →
  (∀ n, bounded_at c k (fst (run_instances (take n l) w)))
  ∧ (∀ env req w' it,
       connected env = false →
       derived_key c req = Ret k →
       inMemoryCache w' !! k = Some it →
       (now env - startTime it ≤ windowMs c → count it = max c →
          fst (middleware c env req w') = w'
          ∧ handler_invoked (snd (middleware c env req w')) = true)
       ∧ (windowMs c < now env - startTime it →
          ∃ n, (n = 0 ∨ n = 0 + 1)
               ∧ inMemoryCache (fst (middleware c env req w')) !! k
                 = Some {| count := n; startTime := now env |})).
Proof.
  intros Hown Hinv. split.
  - intros n. apply run_instances_keeps_bound; [| done].
    by apply Forall_take.
  - intros env req w' it Hc Hk Hit.
    rewrite middleware_unfold, (try_block_key _ _ _ _ k Hk), Hc. split.
    + intros Hin Hmax. rewrite (memory_path_within _ _ _ _ it) by done.
      destruct (max c <=? count it) eqn:E; [| lia]. cbn [fst snd].
      split; [done | apply exceed_invoked].
    + intros Hel. rewrite (memory_path_elapsed _ _ _ _ it) by done.
      destruct (max c <=? 0); cbn;
        [exists 0 | exists 1]; (split; [lia | apply lookup_insert_eq]).
Qed.

(** *** Counting inside one window *)

Lemma run_app c l1 l2 w :
  run c (l1 ++ l2) w =
    (fst (run c l2 (fst (run c l1 w))),
     snd (run c l1 w) ++ snd (run c l2 (fst (run c l1 w)))).
Proof.
  revert w. induction l1 as [|[env req] l1 IH]; intros w.
  - cbn. by destruct (run c l2 w).
  - cbn [app]. rewrite !run_cons, IH. done.
Qed.

(** The in-memory backend, request by request, inside the window that
    opens at [t0]. *)
Section Window.
Variables (c : Config) (key : string) (t0 : Z).

Lemma step_first x w :
  0 < max c →
  in_window c false key t0 x →
  fresh c false key t0 w →
  snd (middleware c x.1 x.2 w) = admit_outcome
  ∧ counted c false key t0 1 (fst (middleware c x.1 x.2 w)).
Proof.
  destruct x as [env req]. intros Hmax (Hc & Hf & Hk & Ht) Hfresh.
  cbn [fst snd fresh counted] in *.
  rewrite middleware_unfold, (try_block_key _ _ _ _ key Hk), Hc. cbn [fst snd].
  destruct (inMemoryCache w !! key) as [it|] eqn:Hit.
  - rewrite (memory_path_elapsed _ _ _ _ it) by (done || lia).
    destruct (max c <=? 0) eqn:E; [lia |]. cbn.
    split; [done |]. eexists. split; [apply lookup_insert_eq |]. cbn.
    clear -Ht. lia.
  - rewrite memory_path_absent by done.
    destruct (max c <=? 0) eqn:E; [lia |]. cbn.
    split; [done |]. eexists. split; [apply lookup_insert_eq |]. cbn.
    clear -Ht. lia.
Qed.

(** With [max = 0] the first request of a fresh window already finds the
    quota reached. *)
Lemma step_first_full x w :
  max c ≤ 0 →
  in_window c false key t0 x →
  fresh c false key t0 w →
  snd (middleware c x.1 x.2 w) = exceed (handler c (ambient x.1) x.2).
Proof.
  destruct x as [env req]. intros Hmax (Hc & Hf & Hk & Ht) Hfresh.
  cbn [fst snd fresh] in *.
  rewrite middleware_unfold, (try_block_key _ _ _ _ key Hk), Hc. cbn [fst snd].
  destruct (inMemoryCache w !! key) as [it|] eqn:Hit.
  - rewrite (memory_path_elapsed _ _ _ _ it) by (done || lia).
    by destruct (max c <=? 0) eqn:E; [| lia].
  - rewrite memory_path_absent by done.
    by destruct (max c <=? 0) eqn:E; [| lia].
Qed.

Lemma step_below x j w :
  in_window c false key t0 x →
  counted c false key t0 j w → j < max c →
  snd (middleware c x.1 x.2 w) = admit_outcome
  ∧ counted c false key t0 (j + 1) (fst (middleware c x.1 x.2 w)).
Proof.
  destruct x as [env req]. intros (Hc & Hf & Hk & Ht) Hj Hlt. cbn [fst snd] in *.
  rewrite middleware_unfold, (try_block_key _ _ _ _ key Hk), Hc. cbn [fst snd].
  destruct Hj as (it & Hit & Hcount & Hstart).
  rewrite (memory_path_within _ _ _ _ it) by (done || lia).
  destruct (max c <=? count it) eqn:E; [lia |]. cbn.
  split; [done |]. eexists. split; [apply lookup_insert_eq |]. cbn.
  split; [clear -Hcount; lia | done].
Qed.

Lemma step_full x j w :
  in_window c false key t0 x →
  counted c false key t0 j w → max c ≤ j →
  middleware c x.1 x.2 w = (w, exceed (handler c (ambient x.1) x.2)).
Proof.
  destruct x as [env req]. intros (Hc & Hf & Hk & Ht) Hj Hge. cbn [fst snd] in *.
  rewrite middleware_unfold, (try_block_key _ _ _ _ key Hk), Hc.
  destruct Hj as (it & Hit & Hcount & Hstart).
  rewrite (memory_path_within _ _ _ _ it) by (done || lia).
  destruct (max c <=? count it) eqn:E; [done | lia].
Qed.

Lemma run_below l : ∀ j w,
  Forall (in_window c false key t0) l →
  counted c false key t0 j w →
  j + Z.of_nat (length l) ≤ max c →
  snd (run c l w) = List.map (λ _, admit_outcome) l
  ∧ counted c false key t0 (j + Z.of_nat (length l)) (fst (run c l w)).
Proof.
  induction l as [|[env req] l IH]; intros j w Hall Hj Hlen.
  - cbn. by rewrite Z.add_0_r.
  - apply Forall_cons in Hall as [Hx Hall]. rewrite run_cons.
    cbn [length] in *.
    destruct (step_below (env, req) j w Hx Hj) as [Ho Hj']; [lia |].
    cbn [fst snd] in Ho, Hj'. rewrite Ho.
    destruct (IH (j + 1) _ Hall Hj') as [Hos Hfin]; [lia |].
    cbn [fst snd List.map]. rewrite Hos. split; [done |].
    by replace (j + Z.of_nat (S (length l))) with (j + 1 + Z.of_nat (length l)) by lia.
Qed.

Lemma run_from_fresh l w :
  Forall (in_window c false key t0) l →
  fresh c false key t0 w →
  l ≠ [] →
  Z.of_nat (length l) ≤ max c →
  snd (run c l w) = List.map (λ _, admit_outcome) l
  ∧ counted c false key t0 (Z.of_nat (length l)) (fst (run c l w)).
Proof.
  destruct l as [|[env req] l]; [done |]. intros Hall Hfresh _ Hlen.
  apply Forall_cons in Hall as [Hx Hall]. rewrite run_cons. cbn [length] in *.
  destruct (step_first (env, req) w) as [Ho H1]; [lia | done | done |].
  cbn [fst snd] in Ho, H1. rewrite Ho.
  destruct (run_below l 1 _ Hall H1) as [Hos Hfin]; [lia |].
  cbn [fst snd List.map]. rewrite Hos. split; [done |].
  by replace (Z.of_nat (S (length l))) with (1 + Z.of_nat (length l)) by lia.
Qed.

End Window.

(** Requests counted under one key while the store is connected are all
    admitted. *)
Lemma run_connected c key l : ∀ w,
  Forall (λ x, connected x.1 = true ∧ derived_key c x.2 = Ret key) l →
  snd (run c l w) = List.map (λ _, admit_outcome) l.
Proof.
  induction l as [|[env req] l IH]; intros w Hall; [done |].
  apply Forall_cons in Hall as [[Hc Hk] Hall]. cbn [fst snd] in Hc, Hk.
  rewrite run_cons, (middleware_connected _ _ _ _ key Hk Hc). cbn [fst snd List.map].
  by rewrite IH.
Qed.

Lemma proceeded_exceed h :
  proceeded (exceed h) = match ending h with Throws _ => true | _ => false end.
Proof. unfold exceed. by destruct (ending h). Qed.

Lemma trace_exceed h :
  trace (exceed h)
  = Exceeded h :: match ending h with
                  | Throws e => [LogError e; Proceed]
                  | _ => []
                  end.
Proof. unfold exceed. by destruct (ending h). Qed.

Lemma observe_on_key c k l : ∀ w,
  Forall (λ x, touches c k x = true) l → observe c k l w = snd (run c l w).
Proof.
  induction l as [|[env req] l IH]; intros w Hall; [done |].
  apply Forall_cons in Hall as [Hx Hall].
  rewrite observe_cons, run_cons, Hx. cbn [fst snd app]. by rewrite IH.
Qed.

Lemma in_window_touches c shared key t0 x :
  in_window c shared key t0 x → touches c key x = true.
Proof.
  intros (_ & _ & Hk & _). unfold touches. rewrite Hk.
  by apply bool_decide_eq_true.
Qed.

(** C1, as the specification words it, fails for a limiter whose exceeded
    handler throws: with [max = 2] and a window of one second, in the
    in-memory backend, the third request of a caller inside the window goes
    to the handler, the handler throws, the [catch] block logs the error and
    calls [next()], and the request is admitted like the two before it. *)
Lemma throwing_handler_admits_beyond_quota :
  List.map decision
    (snd (run (resolve failing_handler_options)
            (List.map (λ t, (quiet false a_stack t, a_request)) [0; 100; 200])
            empty_world))
  = [Admit; Admit; Admit]
  ∧ List.map (λ o, (handler_invoked o, proceeded o))
      (snd (run (resolve failing_handler_options)
              (List.map (λ t, (quiet false a_stack t, a_request)) [0; 100; 200])
              empty_world))
    = [(false, true); (false, true); (true, true)].
Proof. split; by vm_compute. Qed.

(** C1, amended: in the in-memory backend, under a limiter whose [max] is
    not negative, take any run whose requests for one key are [max] requests
    followed by one more, all arriving inside one window that was fresh for
    the key, with any traffic for other keys in between: for each of the
    first [max] the middleware calls [next()] and nothing else, and the next
    one goes to the exceeded handler; after the handler the middleware does
    nothing more, unless the handler call itself throws: then it logs the
    error and calls [next()]. *)
Theorem quota_enforced (c : Config) (key : string) (t0 : Z)
    (l lk : list (Env * Req)) (x : Env * Req) (w : World) :
  0 ≤ max c →
  filter (λ y, touches c key y = true) l = lk ++ [x] →
  Z.of_nat (length lk) = max c →
  Forall (in_window c false key t0) (lk ++ [x]) →
  fresh c false key t0 w →
  observe c key l w
    = List.map (λ _, {| trace := [Proceed]; settled := Fulfilled |}) lk
      ++ [exceed (handler c (ambient x.1) x.2)]
  ∧ trace (exceed (handler c (ambient x.1) x.2))
    = Exceeded (handler c (ambient x.1) x.2)
      :: match ending (handler c (ambient x.1) x.2) with
         | Throws e => [LogError e; Proceed]
         | _ => []
         end
  ∧ handler_invoked (exceed (handler c (ambient x.1) x.2)) = true
  ∧ proceeded (exceed (handler c (ambient x.1) x.2))
    = match ending (handler c (ambient x.1) x.2) with
      | Throws _ => true
      | _ => false
      end.
Proof.
  intros Hmax Hfilter Hlen Hall Hfresh.
  split; [| split; [apply trace_exceed
                   | split; [apply exceed_invoked | apply proceeded_exceed]]].
  destruct (observe_filter c key l w w) as [-> _]; [done |].
  rewrite Hfilter, observe_on_key
    by (eapply Forall_impl; [exact Hall | apply in_window_touches]).
  apply Forall_app in Hall as [Hl Hx]. rewrite Forall_singleton in Hx.
  rewrite run_app. cbn [snd].
  destruct x as [env req]. rewrite run_cons. cbn [fst snd run].
  destruct lk as [|y lk].
  - cbn [run fst snd List.map app length] in *.
    pose proof (step_first_full c key t0 (env, req) w) as Hfull.
    cbn [fst snd] in Hfull. rewrite Hfull by (done || lia). done.
  - destruct (run_from_fresh c key t0 (y :: lk) w Hl Hfresh) as [Hos Hfin];
      [done | lia |].
    rewrite Hos. f_equal.
    pose proof (step_full c key t0 (env, req) _ _ Hx Hfin) as Hfull.
    cbn [fst snd] in Hfull. rewrite Hfull by lia. done.
Qed.

(** *** The two backends side by side *)

(** C5 is not what the code does.  With [max = 2] and a window of one
    minute, three requests of one caller at 0 s, 1 s and 2 s, all inside one
    window: the in-memory backend admits two and rejects the third, the
    shared-store backend admits all three and leaves the count of the key at
    3.  The store path counts and never compares: the test of line 48 is
    made on the boolean that [get], called without a callback, returns. *)
Lemma backends_disagree_within_one_window :
  List.map decision
    (snd (run (resolve two_per_minute)
            (List.map (λ t, (quiet false a_stack t, a_request)) [0; 1000; 2000])
            empty_world))
  = [Admit; Admit; Reject]
  ∧ List.map decision
      (snd (run (resolve two_per_minute)
              (List.map (λ t, (quiet true a_stack t, a_request)) [0; 1000; 2000])
              empty_world))
    = [Admit; Admit; Admit]
  ∧ SharedStore.get 2000 a_key
      (store (fst (run (resolve two_per_minute)
                     (List.map (λ t, (quiet true a_stack t, a_request)) [0; 1000; 2000])
                     empty_world)))
    = Some 3.
Proof. repeat split; by vm_compute. Qed.

Lemma middleware_frame c env req w key k :
  derived_key c req = Ret key → k ≠ key →
  agree_at k (fst (middleware c env req w)) w.
Proof.
  intros Hk Hne. rewrite middleware_unfold. cbn [fst].
  by apply (try_block_frame _ _ _ _ key).
Qed.

Lemma counted_agree c shared k t0 j w w' :
  agree_at k w' w → counted c shared k t0 j w → counted c shared k t0 j w'.
Proof. intros [Hm Hs]. unfold counted. rewrite Hm, Hs. done. Qed.

(** *** Instances *)
Lemma quota_enforced_witness :
  fresh (resolve two_per_second) false a_key 0 empty_world
  ∧ observe (resolve two_per_second) a_key
      [(quiet false a_stack 0, a_request); (quiet false a_stack 50, b_request);
       (quiet false a_stack 100, a_request); (quiet true a_stack 150, b_request);
       (quiet false a_stack 200, a_request)]
      empty_world
    = [ {| trace := [Proceed]; settled := Fulfilled |};
        {| trace := [Proceed]; settled := Fulfilled |};
        exceed (default_handler (ambient (quiet false a_stack 200)) a_request) ].
Proof.
  split; [reflexivity |].
  refine (proj1 (quota_enforced (resolve two_per_second) a_key 0 _
                   [(quiet false a_stack 0, a_request); (quiet false a_stack 100, a_request)]
                   (quiet false a_stack 200, a_request) empty_world _ _ _ _ _));
    [cbn; lia | by vm_compute | reflexivity | | reflexivity].
  repeat constructor; cbn; lia.
Defined.

Lemma counters_stay_bounded_witness :
  bounded_at (resolve auth_options) "ratelimit:auth:203.0.113.7" empty_world
  ∧ bounded_at (resolve auth_options) "ratelimit:auth:203.0.113.7"
      (fst (run_instances
              (take 6
                 [(resolve standard_options, quiet false a_stack 0, a_request);
                  (resolve auth_options, quiet false a_stack 1, a_request);
                  (resolve user_options, quiet false a_stack 2, b_request);
                  (resolve standard_options, quiet false a_stack 3, a_request);
                  (resolve auth_options, quiet false a_stack 4, a_request);
                  (resolve user_options, quiet false a_stack 5, a_request)])
              empty_world)).
Proof.
  assert (bounded_at (resolve auth_options) "ratelimit:auth:203.0.113.7" empty_world)
    as H0.
  { intros it. cbn. rewrite lookup_empty. discriminate. }
  split; [exact H0 |].
  refine (proj1 (counters_stay_bounded (resolve auth_options)
                   "ratelimit:auth:203.0.113.7" _ empty_world _ H0) 6%nat).
  repeat constructor; cbn; first [reflexivity | discriminate].
Defined.


Lemma rateLimiter_checks_nothing_witness :
  ∃ m : Middleware,
    rateLimiter bad_options = Ret m
    ∧ handler_invoked (snd (m (quiet false a_stack 0) a_request empty_world)) = true.
Proof.
  destruct (rateLimiter_checks_nothing bad_options) as (m & Hm & Hreq).
  exists m. split; [exact Hm |].
  apply (Hreq (quiet false a_stack 0) a_request empty_world a_key);
    [cbn; lia | reflexivity | reflexivity |].
  intros it. cbn. rewrite lookup_empty. discriminate.
Defined.


Lemma keys_do_not_interfere_witness :
  observe (resolve two_per_second) a_key
    [(quiet false a_stack 0, a_request); (quiet true a_stack 10, b_request);
     (quiet false a_stack 20, a_request); (quiet false a_stack 30, b_request);
     (quiet false a_stack 40, a_request)]
    empty_world
  = observe (resolve two_per_second) a_key
      [(quiet false a_stack 0, a_request); (quiet false a_stack 20, a_request);
       (quiet false a_stack 40, a_request)]
      empty_world.
Proof.
  refine (proj1 (proj2 (keys_do_not_interfere (resolve two_per_second))
                   a_key _ _ empty_world empty_world _ _)).
  - by split.
  - by vm_compute.
Defined.

(** The scenario of the authentication limiter ([max = 10], one minute) in
    the in-memory backend: ten requests in quick succession from one address
    are admitted and the eleventh is answered with status 429 and type
    [rate_limit_error]. *)
Example auth_limiter_eleventh_request :
  List.map decision
    (snd (run (resolve auth_options)
            (List.map (λ t, (quiet false a_stack t, a_request)) (seqZ 0 11))
            empty_world))
  = replicate 10 Admit ++ [Reject]
  ∧ List.map (responses (Some "test"%string))
      (snd (run (resolve auth_options)
              (List.map (λ t, (quiet false a_stack t, a_request)) (seqZ 0 11))
              empty_world))
    = replicate 10 []
      ++ [[ {| r_status := 429; r_error := rate_limit_body None |} ]].
Proof. split; by vm_compute. Qed.

(** ** Further properties of the error handler, the limiters and their mounting *)

Import App.

(** *** Errors on their way through [errorHandler] *)

Lemma errorHandler_AppError captured message code type errs node_env :
  code ≠ 0 → type ≠ ""%string →
  errorHandler node_env (AppError captured message code type errs) =
    {| r_status := code;
       r_error :=
         {| b_type := type;
            b_message := Some message;
            b_details := match errs with
                         | [] => None
                         | _ :: _ => Some (List.map Verbatim errs)
                         end;
            b_stack := if strict_eq_str node_env "development"
                          && negb (String.eqb captured "")
                       then Some captured else None |} |}.
Proof.
  intros Hc Ht. unfold errorHandler, classify, AppError. cbn.
  destruct (code =? 0) eqn:E; [lia |]. cbn.
  destruct (String.eqb type "") eqn:Et; [by apply String.eqb_eq in Et |].
  f_equal. f_equal.
  - by destruct (negb (String.eqb message "") && _).
  - by destruct errs.
Qed.

(** X1: an [AppError] built with a non-zero status code and a non-empty
    type comes out of [errorHandler] as it was built: its status code, its
    type, its message (whatever the text, empty or not) and its error items
    as [details], which is left out when there are none.  An empty type is
    answered as [custom_error]; a status code of 0 counts as missing, so the
    answer is 500 and [server_error] whatever type the error carries. *)
Theorem app_error_response (captured message type : string) (code : Z)
    (errs : list ErrItem) (node_env : option string) :
  (code ≠ 0 → type ≠ ""%string →
   errorHandler node_env (AppError captured message code type errs) =
     {| r_status := code;
        r_error :=
          {| b_type := type;
             b_message := Some message;
             b_details := match errs with
                          | [] => None
                          | _ :: _ => Some (List.map Verbatim errs)
                          end;
             b_stack := if strict_eq_str node_env "development"
                           && negb (String.eqb captured "")
                        then Some captured else None |} |})
  ∧ (code ≠ 0 →
     b_type (r_error (errorHandler node_env (AppError captured message code "" errs)))
     = "custom_error"%string)
  ∧ r_status (errorHandler node_env (AppError captured message 0 type errs)) = 500
  ∧ b_type (r_error (errorHandler node_env (AppError captured message 0 type errs)))
    = "server_error"%string.
Proof.
  split; [apply errorHandler_AppError |]. split; [| done].
  intros Hc. unfold errorHandler, classify, AppError. cbn.
  by destruct (code =? 0) eqn:E; [lia |].
Qed.

Lemma app_error_response_witness :
  errorHandler (Some "production"%string)
    (AppError a_stack "User not found" 404 "not_found" [])
  = {| r_status := 404;
       r_error := {| b_type := "not_found"; b_message := Some "User not found"%string;
                     b_details := None; b_stack := None |} |}.
Proof.
  exact (proj1 (app_error_response a_stack "User not found" "not_found" 404 []
                  (Some "production"%string))
           ltac:(discriminate) ltac:(discriminate)).
Defined.

(** X2: a request no route answers is answered, through [notFoundHandler]
    and [errorHandler], with status 404, type [not_found] and the message
    ["Not found - "] followed by the URL as requested, for every URL, the
    empty one included; there are no details. *)
Theorem not_found_response (captured originalUrl : string) (node_env : option string) :
  errorHandler node_env (notFoundHandler captured originalUrl) =
    {| r_status := 404;
       r_error :=
         {| b_type := "not_found";
            b_message := Some ("Not found - " +:+ originalUrl);
            b_details := None;
            b_stack := if strict_eq_str node_env "development"
                          && negb (String.eqb captured "")
                       then Some captured else None |} |}.
Proof. unfold notFoundHandler. by rewrite errorHandler_AppError. Qed.

(** X3: whatever the error, the answer of [errorHandler] has a status that
    is 400, 401, 409 or 500 or else the error's own non-zero status code;
    its [details], when present, is not empty; and it carries a [stack] only
    when [NODE_ENV] is [development], and then the non-empty stack of the
    error itself. *)
Theorem error_response_well_formed (err : ErrVal) (node_env : option string) :
  (r_status (errorHandler node_env err) ∈ [400; 401; 409; 500]
   ∨ (e_statusCode err = Some (r_status (errorHandler node_env err))
      ∧ r_status (errorHandler node_env err) ≠ 0))
  ∧ b_details (r_error (errorHandler node_env err)) ≠ Some []
  ∧ ∀ s, b_stack (r_error (errorHandler node_env err)) = Some s →
         node_env = Some "development"%string ∧ e_stack err = Some s ∧ s ≠ ""%string.
Proof.
  unfold errorHandler. cbn [r_status r_error b_details b_stack]. split; [| split].
  - unfold classify.
    destruct (is_ValidationError err); [left; set_solver |].
    destruct (is_UniqueConstraintError err); [left; set_solver |].
    destruct (is_ForeignKeyConstraintError err); [left; set_solver |].
    destruct (_ || _); [left; set_solver |].
    destruct (e_statusCode err) as [n|] eqn:En; cbn.
    + destruct (n =? 0) eqn:E; cbn.
      * destruct (strict_eq_str (e_code err) _); left; set_solver.
      * right. split; [done | lia].
    + destruct (strict_eq_str (e_code err) _); left; set_solver.
  - by destruct (errors (classify err)).
  - intros s. destruct node_env as [v|]; [| done]. cbn.
    destruct (String.eqb v "development") eqn:Ev; [| done].
    apply String.eqb_eq in Ev as ->.
    destruct (e_stack err) as [t|]; [| done]. cbn.
    destruct (String.eqb t "") eqn:Et; [done |]. cbn. intros [= <-].
    repeat split. intros ->. by rewrite String.eqb_refl in Et.
Qed.

(** X4: the message of the error wins over the message of its class: an
    error whose [message] is a non-empty text other than
    ["Internal Server Error"] is answered with that text, whether it is a
    Sequelize error, a token error, a refused connection or anything else;
    the texts [errorHandler] holds for those classes show only for errors
    without such a message. *)
Theorem error_message_precedence (err : ErrVal) (node_env : option string)
    (m : string) :
  e_message err = Some m →
  m ≠ ""%string →
  m ≠ "Internal Server Error"%string →
  b_message (r_error (errorHandler node_env err)) = Some m.
Proof.
  intros Hm Hne Hise. unfold errorHandler. cbn [r_error b_message]. rewrite Hm. cbn.
  destruct (String.eqb m "") eqn:E1; [by apply String.eqb_eq in E1 |].
  destruct (String.eqb m "Internal Server Error") eqn:E2;
    [by apply String.eqb_eq in E2 | done].
Qed.

Lemma error_message_precedence_witness :
  errorHandler None expired_token
  = {| r_status := 401;
       r_error := {| b_type := "auth_error"; b_message := Some "jwt expired"%string;
                     b_details := None; b_stack := None |} |}
  ∧ b_message (r_error (errorHandler None expired_token)) = Some "jwt expired"%string.
Proof.
  split; [reflexivity |].
  apply (error_message_precedence expired_token None "jwt expired");
    [reflexivity | discriminate | discriminate].
Defined.

(** *** The keys of the three limiters *)

(** X5: the three limiters of the module count in one map and one store,
    under keys that tell them apart: a key of [authLimiter] is never a key
    of [userLimiter], and a key of [standardLimiter] is a key of
    [authLimiter] (of [userLimiter]) only for a request whose [ip] itself
    starts with ["auth:"] (with ["user:"]), followed by the address or
    identity the other request is counted under. *)
Theorem limiter_keys_apart (r1 r2 : Req) :
  derived_key (resolve auth_options) r1 ≠ derived_key (resolve user_options) r2
  ∧ (derived_key (resolve standard_options) r1 = derived_key (resolve auth_options) r2
     ↔ ip r1 = "auth:" +:+ ip r2)
  ∧ (derived_key (resolve standard_options) r1 = derived_key (resolve user_options) r2
     ↔ ip r1 = "user:" +:+ identity r2).
Proof.
  unfold derived_key, resolve, identity. cbn. repeat split.
  - discriminate.
  - intros [= H]. exact H.
  - intros H. by rewrite H.
  - intros [= H]. exact H.
  - intros H. by rewrite H.
Qed.

(** X6: [userLimiter] counts by identity: two requests share its counter
    exactly when they carry the same identity, the user id when the request
    is authenticated and the address otherwise.  Users behind one address
    are counted apart, one user is counted as one from every address, and a
    request without user is counted with the user whose id reads as its
    address. *)
Theorem user_limiter_counts_by_identity (r1 r2 : Req) :
  derived_key (resolve user_options) r1 = derived_key (resolve user_options) r2
  ↔ identity r1 = identity r2.
Proof.
  unfold derived_key, resolve, identity. cbn. split.
  - intros [= H]. exact H.
  - intros H. by rewrite H.
Qed.

(** *** What a rejection and an admission leave behind *)

Lemma handler_invoked_exit c env req w :
  handler_invoked (snd (middleware c env req w)) = true →
  snd (try_block c env req w) = ReturnHandler.
Proof.
  rewrite middleware_unfold. cbn [snd].
  by destruct (snd (try_block c env req w)).
Qed.

Lemma returned_to_handler_unchanged c env req w :
  0 < max c →
  snd (try_block c env req w) = ReturnHandler →
  fst (try_block c env req w) = w.
Proof.
  intros Hmax. unfold try_block.
  destruct (derived_key c req) as [key|e]; [| done].
  destruct (connected env).
  - by rewrite shared_path_unfold.
  - destruct (inMemoryCache w !! key) as [it|] eqn:Hit.
    + destruct (Z_lt_le_dec (windowMs c) (now env - startTime it)).
      * rewrite (memory_path_elapsed _ _ _ _ it) by done.
        destruct (max c <=? 0) eqn:E; [lia | done].
      * rewrite (memory_path_within _ _ _ _ it) by done.
        by destruct (max c <=? count it).
    + rewrite memory_path_absent by done.
      by destruct (max c <=? 0).
Qed.

(** X7: under a limiter with positive [max], an invocation that calls the
    exceeded handler changes nothing, in the map or in the store: it adds to
    no count, moves no window start and sets no expiry, so requests made
    while blocked, however many, do not prolong the block. *)
Theorem rejection_costs_nothing (c : Config) (l : list (Env * Req)) (w : World) :
  0 < max c →
  Forall (λ o, handler_invoked o = true) (snd (run c l w)) →
  fst (run c l w) = w.
Proof.
  intros Hmax. revert w. induction l as [|[env req] l IH]; intros w Hall; [done |].
  rewrite run_cons in Hall |- *. cbn [fst snd] in *.
  apply Forall_cons in Hall as [Ho Hall].
  assert (fst (middleware c env req w) = w) as Hw.
  { rewrite middleware_unfold. cbn [fst].
    by apply returned_to_handler_unchanged, handler_invoked_exit. }
  rewrite Hw in Hall |- *. by apply IH.
Qed.

Lemma rejection_costs_nothing_witness :
  fst (run (resolve one_per_minute)
         [(quiet false a_stack 2, a_request); (quiet false a_stack 3, a_request)]
         (fst (middleware (resolve one_per_minute) (quiet false a_stack 1) a_request
                 empty_world)))
  = fst (middleware (resolve one_per_minute) (quiet false a_stack 1) a_request empty_world).
Proof.
  apply (rejection_costs_nothing (resolve one_per_minute)); [reflexivity |].
  repeat constructor.
Defined.

Lemma middleware_keeps_keys c env req w k :
  is_Some (inMemoryCache w !! k) →
  is_Some (inMemoryCache (fst (middleware c env req w)) !! k).
Proof.
  intros Hk. rewrite middleware_unfold. cbn [fst]. unfold try_block.
  destruct (derived_key c req) as [key|e]; [| done].
  destruct (connected env); [by rewrite shared_path_cache |].
  destruct (memory_path_shape c env key w) as [-> | [v ->]]; [done |].
  cbn. destruct (decide (key = k)) as [-> | Hne].
  - rewrite lookup_insert_eq. eauto.
  - by rewrite lookup_insert_ne.
Qed.

(** X8: the in-memory map only grows: a key that is in it stays in it
    through every later invocation of the limiter, whatever the time that
    passes, and every request the in-memory backend admits leaves its key in
    the map; nothing in the module ever takes a key out. *)
Theorem cache_never_forgets (c : Config) :
  (∀ l w k,
     is_Some (inMemoryCache w !! k) →
     is_Some (inMemoryCache (fst (run c l w)) !! k))
  ∧ (∀ env req w key l,
       connected env = false →
       derived_key c req = Ret key →
       snd (middleware c env req w) = admit_outcome →
       is_Some (inMemoryCache (fst (run c ((env, req) :: l) w)) !! key)).
Proof.
  assert (∀ l w k,
            is_Some (inMemoryCache w !! k) →
            is_Some (inMemoryCache (fst (run c l w)) !! k)) as Hrun.
  { induction l as [|[env req] l IH]; intros w k Hk; [done |].
    rewrite run_cons. cbn [fst]. by apply IH, middleware_keeps_keys. }
  split; [exact Hrun |].
  intros env req w key l Hc Hk Ho. rewrite run_cons. cbn [fst]. apply Hrun.
  revert Ho. rewrite middleware_unfold, (try_block_key _ _ _ _ key Hk), Hc.
  cbn [fst snd].
  assert (∀ h, exceed h ≠ admit_outcome) as Hex.
  { intros h. unfold exceed. by destruct (ending h). }
  destruct (inMemoryCache w !! key) as [it|] eqn:Hit.
  - destruct (Z_lt_le_dec (windowMs c) (now env - startTime it)).
    + rewrite (memory_path_elapsed _ _ _ _ it) by done.
      destruct (max c <=? 0); cbn; rewrite lookup_insert_eq; eauto.
    + rewrite (memory_path_within _ _ _ _ it) by done.
      destruct (max c <=? count it); cbn; [by rewrite Hit |].
      rewrite lookup_insert_eq. eauto.
  - rewrite memory_path_absent by done.
    destruct (max c <=? 0); cbn; [intros Ho; by destruct (Hex _ Ho) |].
    rewrite lookup_insert_eq. eauto.
Qed.

Lemma cache_never_forgets_witness :
  is_Some
    (inMemoryCache
       (fst (run (resolve two_per_second)
               [(quiet false a_stack 0, a_request);
                (quiet false a_stack 5000000, b_request);
                (quiet true a_stack 9000000, b_request)]
               empty_world)) !! a_key).
Proof.
  apply (proj2 (cache_never_forgets (resolve two_per_second))
           (quiet false a_stack 0) a_request empty_world a_key);
    reflexivity.
Defined.

(** *** The two backends count apart *)

Lemma middleware_other_backend c env req w :
  if connected env then inMemoryCache (fst (middleware c env req w)) = inMemoryCache w
  else store (fst (middleware c env req w)) = store w.
Proof.
  rewrite middleware_unfold. cbn [fst]. unfold try_block.
  destruct (derived_key c req) as [key|e]; [| by destruct (connected env)].
  destruct (connected env); [apply shared_path_cache | apply memory_path_store].
Qed.

Lemma run_other_backend c shared key t0 l : ∀ w,
  Forall (λ x, connected x.1 = shared) l →
  fresh c (negb shared) key t0 w →
  fresh c (negb shared) key t0 (fst (run c l w)).
Proof.
  induction l as [|[env req] l IH]; intros w Hall Hfresh; [done |].
  apply Forall_cons in Hall as [Hc Hall]. rewrite run_cons. cbn [fst].
  apply IH; [done |]. cbn [fst] in Hc.
  pose proof (middleware_other_backend c env req w) as Hkeep.
  rewrite Hc in Hkeep. unfold fresh in *.
  destruct shared; cbn [negb] in *; by rewrite Hkeep.
Qed.

(** X9: the map and the store are two separate tallies, and an invocation
    reads and writes only the one it is routed to.  So when the connection
    to the store comes or goes inside a window, the count starts over: a
    caller who has been admitted [max] times by one backend is admitted
    [max] more times by the other, in the same window. *)
Theorem failover_restarts_quota (c : Config) (shared : bool) (key : string)
    (t0 : Z) (l1 l2 : list (Env * Req)) (w : World) :
  0 < max c →
  0 < windowMs c →
  Forall (in_window c shared key t0) l1 →
  Forall (in_window c (negb shared) key t0) l2 →
  fresh c shared key t0 w →
  fresh c (negb shared) key t0 w →
  Z.of_nat (length l1) = max c →
  Z.of_nat (length l2) = max c →
  snd (run c (l1 ++ l2) w) = List.map (λ _, admit_outcome) (l1 ++ l2).
Proof.
  intros Hmax Hw H1 H2 Hf1 Hf2 Hl1 Hl2.
  rewrite run_app, map_app. cbn [snd].
  assert (∀ l w', Forall (in_window c true key t0) l →
                  snd (run c l w') = List.map (λ _, admit_outcome) l) as Hstore.
  { intros l w' Hl. apply (run_connected c key).
    eapply Forall_impl; [exact Hl |]. by intros x (? & _ & ? & _). }
  assert (fresh c (negb shared) key t0 (fst (run c l1 w))) as Hf2'.
  { apply run_other_backend; [| done].
    eapply Forall_impl; [exact H1 |]. by intros x (? & _). }
  destruct shared; cbn [negb] in *.
  - rewrite Hstore by done. f_equal.
    destruct (run_from_fresh c key t0 l2 (fst (run c l1 w)) H2 Hf2') as [-> _];
      [| lia | done].
    intros ->. cbn in Hl2. lia.
  - destruct (run_from_fresh c key t0 l1 w H1 Hf1) as [-> _]; [| lia |].
    { intros ->. cbn in Hl1. lia. }
    f_equal. by apply Hstore.
Qed.

Lemma failover_restarts_quota_witness :
  List.map decision
    (snd (run (resolve two_per_second)
            ([(quiet false a_stack 0, a_request); (quiet false a_stack 100, a_request)]
             ++ [(quiet true a_stack 200, a_request); (quiet true a_stack 300, a_request)])
            empty_world))
  = [Admit; Admit; Admit; Admit].
Proof.
  rewrite (failover_restarts_quota (resolve two_per_second) false a_key 0
             [(quiet false a_stack 0, a_request); (quiet false a_stack 100, a_request)]
             [(quiet true a_stack 200, a_request); (quiet true a_stack 300, a_request)]
             empty_world);
    [reflexivity | reflexivity | reflexivity | | | reflexivity | reflexivity
     | reflexivity | reflexivity].
  - repeat constructor; cbn; lia.
  - repeat constructor; cbn; lia.
Defined.

(** *** The in-memory window is anchored at its first request *)

Section Anchored.
Variables (c : Config) (key : string).
Hypothesis max_positive : 0 < max c.

Lemma anchored_first x w :
  on_memory c key x →
  (inMemoryCache w !! key = None
   ∨ ∃ it, inMemoryCache w !! key = Some it ∧ windowMs c < now x.1 - startTime it) →
  snd (middleware c x.1 x.2 w) = admit_outcome
  ∧ inMemoryCache (fst (middleware c x.1 x.2 w)) !! key
    = Some {| count := 1; startTime := now x.1 |}.
Proof.
  destruct x as [env req]. intros (Hc & Hk) Hstart. cbn [fst snd] in *.
  rewrite middleware_unfold, (try_block_key _ _ _ _ key Hk), Hc.
  destruct Hstart as [Hnone | (it & Hit & Hel)].
  - rewrite memory_path_absent by done.
    destruct (max c <=? 0) eqn:E; [lia |]. cbn. by rewrite lookup_insert_eq.
  - rewrite (memory_path_elapsed _ _ _ _ it) by done.
    destruct (max c <=? 0) eqn:E; [lia |]. cbn. by rewrite lookup_insert_eq.
Qed.

Lemma anchored_next x j s w :
  on_memory c key x →
  inMemoryCache w !! key = Some {| count := j; startTime := s |} →
  now x.1 - s ≤ windowMs c →
  j < max c →
  snd (middleware c x.1 x.2 w) = admit_outcome
  ∧ inMemoryCache (fst (middleware c x.1 x.2 w)) !! key
    = Some {| count := j + 1; startTime := s |}.
Proof.
  destruct x as [env req]. intros (Hc & Hk) Hit Hin Hlt. cbn [fst snd] in *.
  rewrite middleware_unfold, (try_block_key _ _ _ _ key Hk), Hc.
  rewrite (memory_path_within _ _ _ _ _ Hit) by done. cbn [count startTime].
  destruct (max c <=? j) eqn:E; [lia |]. cbn. by rewrite lookup_insert_eq.
Qed.

Lemma anchored_run s l : ∀ j w,
  Forall (λ x, on_memory c key x ∧ now x.1 - s ≤ windowMs c) l →
  inMemoryCache w !! key = Some {| count := j; startTime := s |} →
  j + Z.of_nat (length l) ≤ max c →
  snd (run c l w) = List.map (λ _, admit_outcome) l
  ∧ inMemoryCache (fst (run c l w)) !! key
    = Some {| count := j + Z.of_nat (length l); startTime := s |}.
Proof.
  induction l as [|x l IH]; intros j w Hall Hit Hlen.
  - cbn. by rewrite Z.add_0_r.
  - apply Forall_cons in Hall as [[Hx Hin] Hall]. cbn [length] in Hlen.
    destruct (anchored_next x j s w Hx Hit Hin) as [Ho Hit']; [lia |].
    destruct x as [env req]. rewrite run_cons. cbn [fst snd List.map] in *.
    rewrite Ho. destruct (IH (j + 1) _ Hall Hit') as [-> ->]; [lia |].
    split; [done |]. do 2 f_equal. cbn [length]. lia.
Qed.

End Anchored.

(** X11: the in-memory window opens at the first request counted in it and
    closes for good once a request arrives more than [windowMs] later; the
    count of the old window is then dropped whole.  So a caller unknown to
    the map is admitted [max] times in the window its first request [x]
    opens, and [max] times more in the window opened by the first request
    [y] that arrives more than [windowMs] after [x], however close the last
    requests of the one are to the first of the other. *)
Theorem memory_quota_per_anchored_window (c : Config) (key : string)
    (x y : Env * Req) (l1 l2 : list (Env * Req)) (w : World) :
  0 < max c →
  on_memory c key x →
  on_memory c key y →
  Forall (λ z, on_memory c key z ∧ now z.1 - now x.1 ≤ windowMs c) l1 →
  Forall (λ z, on_memory c key z ∧ now z.1 - now y.1 ≤ windowMs c) l2 →
  windowMs c < now y.1 - now x.1 →
  inMemoryCache w !! key = None →
  Z.of_nat (length (x :: l1)) = max c →
  Z.of_nat (length (y :: l2)) = max c →
  snd (run c ((x :: l1) ++ (y :: l2)) w)
  = List.map (λ _, admit_outcome) ((x :: l1) ++ (y :: l2)).
Proof.
  intros Hmax Hx Hy H1 H2 Hgap Hnone Hl1 Hl2.
  rewrite run_app, map_app. cbn [snd]. cbn [length] in Hl1, Hl2.
  destruct (anchored_first c key Hmax x w Hx) as [Hox Hitx]; [by left |].
  destruct (anchored_run c key (now x.1) l1 1 _ H1 Hitx) as [Ho1 Hit1]; [lia |].
  assert (snd (run c (x :: l1) w) = List.map (λ _, admit_outcome) (x :: l1)
          ∧ inMemoryCache (fst (run c (x :: l1) w)) !! key
            = Some {| count := 1 + Z.of_nat (length l1); startTime := now x.1 |})
    as [-> Hend].
  { destruct x as [env req]. rewrite run_cons. cbn [fst snd List.map] in *.
    by rewrite Hox, Ho1. }
  f_equal.
  destruct (anchored_first c key Hmax y (fst (run c (x :: l1) w)) Hy) as [Hoy Hity].
  { right. eexists. split; [exact Hend | done]. }
  destruct (anchored_run c key (now y.1) l2 1 _ H2 Hity) as [Ho2 _]; [lia |].
  destruct y as [env req]. rewrite run_cons. cbn [fst snd List.map] in *.
  by rewrite Hoy, Ho2.
Qed.

Lemma memory_quota_per_anchored_window_witness :
  List.map decision
    (snd (run (resolve two_per_second)
            (((quiet false a_stack 0, a_request) :: [(quiet false a_stack 1000, a_request)])
             ++ ((quiet false a_stack 1001, a_request)
                 :: [(quiet false a_stack 1001, a_request)]))
            empty_world))
  = [Admit; Admit; Admit; Admit].
Proof.
  rewrite (memory_quota_per_anchored_window (resolve two_per_second) a_key
             (quiet false a_stack 0, a_request) (quiet false a_stack 1001, a_request)
             [(quiet false a_stack 1000, a_request)]
             [(quiet false a_stack 1001, a_request)] empty_world);
    [reflexivity | reflexivity | by split | by split | | | reflexivity | reflexivity
     | reflexivity | reflexivity].
  - repeat constructor; cbn; lia.
  - repeat constructor; cbn; lia.
Defined.

(** *** A limiter mounted twice on one route *)

Lemma serve_cons node_env stages req l w :
  serve node_env ((stages, req) :: l) w =
    (fst (serve node_env l (fst (chain node_env stages req w))),
     snd (chain node_env stages req w)
     :: snd (serve node_env l (fst (chain node_env stages req w)))).
Proof.
  cbn [serve]. destruct (chain node_env stages req w) as [w1 s]. cbn [fst snd].
  by destruct (serve node_env l w1).
Qed.

Lemma serve_app node_env l1 l2 w :
  serve node_env (l1 ++ l2) w =
    (fst (serve node_env l2 (fst (serve node_env l1 w))),
     snd (serve node_env l1 w) ++ snd (serve node_env l2 (fst (serve node_env l1 w)))).
Proof.
  revert w. induction l1 as [|[stages req] l1 IH]; intros w.
  - cbn. by destruct (serve node_env l2 w).
  - cbn [app]. rewrite !serve_cons, IH. done.
Qed.

Lemma chain_twice node_env c e1 e2 req w :
  chain node_env [(c, e1); (c, e2)] req w =
    if proceeded (snd (middleware c e1 req w)) then
      if proceeded (snd (middleware c e2 req (fst (middleware c e1 req w)))) then
        (fst (middleware c e2 req (fst (middleware c e1 req w))), Reached)
      else
        (fst (middleware c e2 req (fst (middleware c e1 req w))),
         match responses node_env
                 (snd (middleware c e2 req (fst (middleware c e1 req w)))) with
         | r :: _ => Answered r
         | [] => Unanswered
         end)
    else
      (fst (middleware c e1 req w),
       match responses node_env (snd (middleware c e1 req w)) with
       | r :: _ => Answered r
       | [] => Unanswered
       end).
Proof.
  cbn [chain]. destruct (middleware c e1 req w) as [w1 o1]. cbn [fst snd].
  destruct (proceeded o1); [| done].
  destruct (middleware c e2 req w1) as [w2 o2]. cbn [fst snd].
  by destruct (proceeded o2).
Qed.

Section Mounted.
Variables (c : Config) (key : string) (t0 : Z).
Variable node_env : option string.
Hypothesis max_positive : 0 < max c.
Hypothesis default_refusal : handler c = default_handler.

Lemma tally_below x j w :
  in_window c false key t0 x →
  tally c false key t0 j w →
  j < max c →
  snd (middleware c x.1 x.2 w) = admit_outcome
  ∧ tally c false key t0 (j + 1) (fst (middleware c x.1 x.2 w)).
Proof.
  intros Hx [[-> Hf] | [Hpos Hj]] Hlt.
  - destruct (step_first c key t0 x w max_positive Hx Hf)
      as [Ho H1].
    split; [done |]. right. split; [lia | done].
  - destruct (step_below c key t0 x j w Hx Hj Hlt) as [Ho H1].
    split; [done |]. right. split; [lia | done].
Qed.

Lemma tally_full x j w :
  in_window c false key t0 x →
  tally c false key t0 j w →
  max c ≤ j →
  middleware c x.1 x.2 w = (w, exceed (handler c (ambient x.1) x.2)).
Proof.
  intros Hx [[-> Hf] | [Hpos Hj]] Hge; [lia |].
  by apply (step_full c key t0 x j w).
Qed.

Lemma default_refusal_answer env req :
  proceeded (exceed (handler c (ambient env) req)) = false
  ∧ too_many match responses node_env (exceed (handler c (ambient env) req)) with
             | r :: _ => Answered r
             | [] => Unanswered
             end.
Proof.
  rewrite default_refusal. split; [done |]. cbn. eexists. by split.
Qed.

Lemma twice_reached x j w :
  twice_in_window c false key t0 x →
  tally c false key t0 j w →
  j + 2 ≤ max c →
  snd (chain node_env (mounted_twice c x).1 (mounted_twice c x).2 w) = Reached
  ∧ tally c false key t0 (j + 2)
      (fst (chain node_env (mounted_twice c x).1 (mounted_twice c x).2 w)).
Proof.
  destruct x as [[e1 e2] req]. intros [H1 H2] Hj Hle.
  unfold mounted_twice. cbn [fst snd] in *. rewrite chain_twice.
  destruct (tally_below (e1, req) j w H1 Hj) as [Ho1 Hj1]; [lia |].
  cbn [fst snd] in *. rewrite Ho1. cbn [proceeded admit_outcome trace existsb orb].
  destruct (tally_below (e2, req) (j + 1) _ H2 Hj1) as [Ho2 Hj2]; [lia |].
  cbn [fst snd] in *. rewrite Ho2. cbn [proceeded admit_outcome trace existsb orb fst snd].
  split; [done |]. by replace (j + 2) with (j + 1 + 1) by lia.
Qed.

Lemma twice_refused x j w :
  twice_in_window c false key t0 x →
  tally c false key t0 j w →
  max c - 1 ≤ j ≤ max c →
  too_many (snd (chain node_env (mounted_twice c x).1 (mounted_twice c x).2 w))
  ∧ ∃ j', max c - 1 ≤ j' ≤ max c
          ∧ tally c false key t0 j'
              (fst (chain node_env (mounted_twice c x).1 (mounted_twice c x).2 w)).
Proof.
  destruct x as [[e1 e2] req]. intros [H1 H2] Hj Hnear.
  unfold mounted_twice. cbn [fst snd] in *. rewrite chain_twice.
  destruct (Z_lt_le_dec j (max c)) as [Hlt | Hge].
  - destruct (tally_below (e1, req) j w H1 Hj Hlt) as [Ho1 Hj1].
    cbn [fst snd] in *. rewrite Ho1. cbn [proceeded admit_outcome trace existsb orb].
    pose proof (tally_full (e2, req) (j + 1) _ H2 Hj1) as Hfull.
    cbn [fst snd] in Hfull. rewrite Hfull by lia. cbn [fst snd].
    destruct (default_refusal_answer e2 req) as [-> Hans].
    split; [done |]. exists (j + 1). split; [lia | done].
  - pose proof (tally_full (e1, req) j w H1 Hj Hge) as Hfull.
    cbn [fst snd] in Hfull. rewrite Hfull. cbn [fst snd].
    destruct (default_refusal_answer e1 req) as [-> Hans].
    split; [done |]. exists j. split; [lia | done].
Qed.

Lemma serve_reached l : ∀ j w,
  Forall (twice_in_window c false key t0) l →
  tally c false key t0 j w →
  j + 2 * Z.of_nat (length l) ≤ max c →
  snd (serve node_env (List.map (mounted_twice c) l) w) = List.map (λ _, Reached) l
  ∧ tally c false key t0 (j + 2 * Z.of_nat (length l))
      (fst (serve node_env (List.map (mounted_twice c) l) w)).
Proof.
  induction l as [|x l IH]; intros j w Hall Hj Hlen.
  - cbn [length List.map serve fst snd]. split; [done |].
    by replace (j + 2 * Z.of_nat 0) with j by lia.
  - apply Forall_cons in Hall as [Hx Hall]. cbn [length] in Hlen.
    destruct (twice_reached x j w Hx Hj) as [Hs Hj2]; [lia |].
    cbn [List.map]. destruct (mounted_twice c x) as [stages req] eqn:Em.
    rewrite serve_cons. cbn [fst snd] in *. rewrite Hs.
    destruct (IH (j + 2) _ Hall Hj2) as [-> Hend]; [lia |].
    split; [done |].
    by replace (j + 2 * Z.of_nat (length (x :: l)))
      with (j + 2 + 2 * Z.of_nat (length l)) by (cbn [length]; lia).
Qed.

Lemma serve_refused l : ∀ j w,
  Forall (twice_in_window c false key t0) l →
  tally c false key t0 j w →
  max c - 1 ≤ j ≤ max c →
  Forall too_many (snd (serve node_env (List.map (mounted_twice c) l) w))
  ∧ length (snd (serve node_env (List.map (mounted_twice c) l) w)) = length l.
Proof.
  induction l as [|x l IH]; intros j w Hall Hj Hnear; [by split |].
  apply Forall_cons in Hall as [Hx Hall].
  destruct (twice_refused x j w Hx Hj Hnear) as [Hs (j' & Hnear' & Hj')].
  cbn [List.map]. destruct (mounted_twice c x) as [stages req] eqn:Em.
  rewrite serve_cons. cbn [fst snd] in *.
  destruct (IH j' _ Hall Hj' Hnear') as [Hrest Hlen].
  split; [by constructor | cbn [length]; by rewrite Hlen].
Qed.

End Mounted.

(** X12: a limiter stands twice on the way of a request when the router
    mounts the limiter the application has already mounted, as
    [standardLimiter] is for every route of the users, videos and comments
    routers.  In the in-memory backend each served request is then counted
    twice under one key, so of the requests of one caller inside one fresh
    window only the first [max / 2] (30 for [standardLimiter]) reach the
    route; every later one is answered 429 with type [rate_limit_error]. *)
Theorem limiter_mounted_twice_halves_quota (c : Config)
    (key : string) (t0 : Z) (node_env : option string)
    (l1 l2 : list (Env * Env * Req)) (w : World) :
  handler c = default_handler →
  0 < max c →
  Forall (twice_in_window c false key t0) (l1 ++ l2) →
  fresh c false key t0 w →
  Z.of_nat (length l1) = max c / 2 →
  ∃ rest,
    snd (serve node_env (List.map (mounted_twice c) (l1 ++ l2)) w)
    = List.map (λ _, Reached) l1 ++ rest
    ∧ length rest = length l2
    ∧ Forall too_many rest.
Proof.
  intros Hh Hmax Hall Hfresh Hlen.
  apply Forall_app in Hall as [H1 H2].
  pose proof (Z.div_mod (max c) 2 ltac:(lia)) as Hdm.
  pose proof (Z.mod_pos_bound (max c) 2 ltac:(lia)) as Hmod.
  assert (tally c false key t0 0 w) as H0 by (left; done).
  destruct (serve_reached c key t0 node_env Hmax l1 0 w H1 H0) as [Ho1 Hend];
    [lia |].
  destruct (serve_refused c key t0 node_env Hmax Hh l2 _ _ H2 Hend)
    as [Hrest Hlen2]; [lia |].
  eexists. rewrite map_app, serve_app. cbn [snd]. rewrite Ho1.
  split; [reflexivity |]. by split.
Qed.

Lemma limiter_mounted_twice_halves_quota_witness :
  ∃ rest,
    snd (serve None
           (List.map (mounted_twice (resolve two_per_second))
              ([(quiet false a_stack 0, quiet false a_stack 1, a_request)]
               ++ [(quiet false a_stack 2, quiet false a_stack 3, a_request)]))
           empty_world)
    = List.map (λ _, Reached)
        [(quiet false a_stack 0, quiet false a_stack 1, a_request)] ++ rest
    ∧ length rest = 1%nat
    ∧ Forall too_many rest.
Proof.
  apply (limiter_mounted_twice_halves_quota (resolve two_per_second) a_key 0 None
           [(quiet false a_stack 0, quiet false a_stack 1, a_request)]
           [(quiet false a_stack 2, quiet false a_stack 3, a_request)] empty_world);
    [reflexivity | reflexivity | | reflexivity | reflexivity].
  repeat constructor; cbn; lia.
Defined.

(** *** Two limiters in a row *)

Lemma chain_two node_env c1 c2 e1 e2 req w :
  chain node_env [(c1, e1); (c2, e2)] req w =
    if proceeded (snd (middleware c1 e1 req w)) then
      if proceeded (snd (middleware c2 e2 req (fst (middleware c1 e1 req w)))) then
        (fst (middleware c2 e2 req (fst (middleware c1 e1 req w))), Reached)
      else
        (fst (middleware c2 e2 req (fst (middleware c1 e1 req w))),
         match responses node_env
                 (snd (middleware c2 e2 req (fst (middleware c1 e1 req w)))) with
         | r :: _ => Answered r
         | [] => Unanswered
         end)
    else
      (fst (middleware c1 e1 req w),
       match responses node_env (snd (middleware c1 e1 req w)) with
       | r :: _ => Answered r
       | [] => Unanswered
       end).
Proof.
  cbn [chain]. destruct (middleware c1 e1 req w) as [w1 o1]. cbn [fst snd].
  destruct (proceeded o1); [| done].
  destruct (middleware c2 e2 req w1) as [w2 o2]. cbn [fst snd].
  by destruct (proceeded o2).
Qed.

Lemma tally_agree c shared k t0 j w w' :
  agree_at k w' w → tally c shared k t0 j w → tally c shared k t0 j w'.
Proof.
  intros Hag [[-> Hf] | [Hpos Hj]].
  - left. split; [done |]. destruct Hag as [Hm Hs]. unfold fresh in *.
    by rewrite Hm, Hs.
  - right. split; [done |]. by apply (counted_agree _ _ _ _ _ w).
Qed.

Section Row.
Variables (c1 c2 : Config) (k1 k2 : string) (t0 : Z).
Variable node_env : option string.
Hypothesis keys_differ : k1 ≠ k2.
Hypothesis max1_positive : 0 < max c1.
Hypothesis max2_positive : 0 < max c2.
Hypothesis default_refusal1 : handler c1 = default_handler.
Hypothesis default_refusal2 : handler c2 = default_handler.

Lemma row_reached x j1 j2 w :
  row_in_window c1 c2 false k1 k2 t0 x →
  tally c1 false k1 t0 j1 w → tally c2 false k2 t0 j2 w →
  j1 < max c1 → j2 < max c2 →
  snd (chain node_env (mounted_in_row c1 c2 x).1 (mounted_in_row c1 c2 x).2 w) = Reached
  ∧ tally c1 false k1 t0 (j1 + 1)
      (fst (chain node_env (mounted_in_row c1 c2 x).1 (mounted_in_row c1 c2 x).2 w))
  ∧ tally c2 false k2 t0 (j2 + 1)
      (fst (chain node_env (mounted_in_row c1 c2 x).1 (mounted_in_row c1 c2 x).2 w)).
Proof.
  destruct x as [[e1 e2] req]. intros [H1 H2] Hj1 Hj2 Hlt1 Hlt2.
  unfold mounted_in_row. cbn [fst snd] in *. rewrite chain_two.
  pose proof H1 as (_ & _ & Hk1 & _). pose proof H2 as (_ & _ & Hk2 & _).
  cbn [fst snd] in Hk1, Hk2.
  destruct (tally_below c1 k1 t0 max1_positive
              (e1, req) j1 w H1 Hj1 Hlt1) as [Ho1 Hj1'].
  cbn [fst snd] in *. rewrite Ho1. cbn [proceeded admit_outcome trace existsb orb].
  assert (tally c2 false k2 t0 j2 (fst (middleware c1 e1 req w))) as Hj2'.
  { eapply tally_agree; [| exact Hj2]. by apply (middleware_frame _ _ _ _ k1). }
  destruct (tally_below c2 k2 t0 max2_positive
              (e2, req) j2 _ H2 Hj2' Hlt2) as [Ho2 Hj2''].
  cbn [fst snd] in *. rewrite Ho2. cbn [proceeded admit_outcome trace existsb orb fst snd].
  split; [done |]. split; [| done].
  eapply tally_agree; [| exact Hj1']. by apply (middleware_frame _ _ _ _ k2).
Qed.

Lemma row_refused x j1 j2 w :
  row_in_window c1 c2 false k1 k2 t0 x →
  tally c1 false k1 t0 j1 w → tally c2 false k2 t0 j2 w →
  max c1 ≤ j1 ∨ max c2 ≤ j2 →
  too_many (snd (chain node_env (mounted_in_row c1 c2 x).1 (mounted_in_row c1 c2 x).2 w))
  ∧ ∃ j1',
      tally c1 false k1 t0 j1'
        (fst (chain node_env (mounted_in_row c1 c2 x).1 (mounted_in_row c1 c2 x).2 w))
      ∧ tally c2 false k2 t0 j2
          (fst (chain node_env (mounted_in_row c1 c2 x).1 (mounted_in_row c1 c2 x).2 w))
      ∧ (max c1 ≤ j1' ∨ max c2 ≤ j2).
Proof.
  destruct x as [[e1 e2] req]. intros [H1 H2] Hj1 Hj2 Hfull.
  unfold mounted_in_row. cbn [fst snd] in *. rewrite chain_two.
  pose proof H1 as (_ & _ & Hk1 & _). cbn [fst snd] in Hk1.
  destruct (Z_lt_le_dec j1 (max c1)) as [Hlt | Hge].
  - destruct Hfull as [? | Hfull2]; [lia |].
    destruct (tally_below c1 k1 t0 max1_positive
                (e1, req) j1 w H1 Hj1 Hlt) as [Ho1 Hj1'].
    cbn [fst snd] in *. rewrite Ho1. cbn [proceeded admit_outcome trace existsb orb].
    assert (tally c2 false k2 t0 j2 (fst (middleware c1 e1 req w))) as Hj2'.
    { eapply tally_agree; [| exact Hj2]. by apply (middleware_frame _ _ _ _ k1). }
    pose proof (tally_full c2 k2 t0 max2_positive (e2, req) j2 _ H2 Hj2' Hfull2) as Hf.
    cbn [fst snd] in Hf. rewrite Hf. cbn [fst snd].
    destruct (default_refusal_answer c2 node_env default_refusal2 e2 req) as [-> Hans].
    split; [done |]. exists (j1 + 1). split; [done |]. split; [done | by right].
  - pose proof (tally_full c1 k1 t0 max1_positive (e1, req) j1 w H1 Hj1 Hge) as Hf.
    cbn [fst snd] in Hf. rewrite Hf. cbn [fst snd].
    destruct (default_refusal_answer c1 node_env default_refusal1 e1 req) as [-> Hans].
    split; [done |]. exists j1. split; [done |]. split; [done | by left].
Qed.

Lemma serve_row_reached l : ∀ j w,
  Forall (row_in_window c1 c2 false k1 k2 t0) l →
  tally c1 false k1 t0 j w → tally c2 false k2 t0 j w →
  j + Z.of_nat (length l) ≤ Z.min (max c1) (max c2) →
  snd (serve node_env (List.map (mounted_in_row c1 c2) l) w) = List.map (λ _, Reached) l
  ∧ tally c1 false k1 t0 (j + Z.of_nat (length l))
      (fst (serve node_env (List.map (mounted_in_row c1 c2) l) w))
  ∧ tally c2 false k2 t0 (j + Z.of_nat (length l))
      (fst (serve node_env (List.map (mounted_in_row c1 c2) l) w)).
Proof.
  induction l as [|x l IH]; intros j w Hall Hj1 Hj2 Hlen.
  - cbn [length List.map serve fst snd]. split; [done |].
    by replace (j + Z.of_nat 0) with j by lia.
  - apply Forall_cons in Hall as [Hx Hall]. cbn [length] in Hlen.
    destruct (row_reached x j j w Hx Hj1 Hj2) as (Hs & Hj1' & Hj2'); [lia | lia |].
    cbn [List.map]. destruct (mounted_in_row c1 c2 x) as [stages req] eqn:Em.
    rewrite serve_cons. cbn [fst snd] in *. rewrite Hs.
    destruct (IH (j + 1) _ Hall Hj1' Hj2') as (-> & Hend1 & Hend2); [lia |].
    split; [done |].
    by replace (j + Z.of_nat (length (x :: l)))
      with (j + 1 + Z.of_nat (length l)) by (cbn [length]; lia).
Qed.

Lemma serve_row_refused l : ∀ j1 j2 w,
  Forall (row_in_window c1 c2 false k1 k2 t0) l →
  tally c1 false k1 t0 j1 w → tally c2 false k2 t0 j2 w →
  max c1 ≤ j1 ∨ max c2 ≤ j2 →
  Forall too_many (snd (serve node_env (List.map (mounted_in_row c1 c2) l) w))
  ∧ length (snd (serve node_env (List.map (mounted_in_row c1 c2) l) w)) = length l.
Proof.
  induction l as [|x l IH]; intros j1 j2 w Hall Hj1 Hj2 Hfull; [by split |].
  apply Forall_cons in Hall as [Hx Hall].
  destruct (row_refused x j1 j2 w Hx Hj1 Hj2 Hfull) as [Hs (j1' & Hj1' & Hj2' & Hfull')].
  cbn [List.map]. destruct (mounted_in_row c1 c2 x) as [stages req] eqn:Em.
  rewrite serve_cons. cbn [fst snd] in *.
  destruct (IH j1' j2 _ Hall Hj1' Hj2' Hfull') as [Hrest Hlen].
  split; [by constructor | cbn [length]; by rewrite Hlen].
Qed.

End Row.

(** X13: two limiters with the default handler stand in a row on the way of
    a request and count it under different keys, as [standardLimiter] and
    [authLimiter] do for the routes under [/api/auth].  In the in-memory
    backend, of the requests of one caller inside one window fresh for both
    keys, the first [min max1 max2] (10 under [/api/auth]) reach the route
    and every later one is answered 429 with type [rate_limit_error]. *)
Theorem limiters_in_row_admit_the_smaller_quota (c1 c2 : Config)
    (k1 k2 : string) (t0 : Z) (node_env : option string)
    (l1 l2 : list (Env * Env * Req)) (w : World) :
  k1 ≠ k2 →
  handler c1 = default_handler →
  handler c2 = default_handler →
  0 < max c1 → 0 < max c2 →
  Forall (row_in_window c1 c2 false k1 k2 t0) (l1 ++ l2) →
  fresh c1 false k1 t0 w →
  fresh c2 false k2 t0 w →
  Z.of_nat (length l1) = Z.min (max c1) (max c2) →
  ∃ rest,
    snd (serve node_env (List.map (mounted_in_row c1 c2) (l1 ++ l2)) w)
    = List.map (λ _, Reached) l1 ++ rest
    ∧ length rest = length l2
    ∧ Forall too_many rest.
Proof.
  intros Hne Hh1 Hh2 Hm1 Hm2 Hall Hf1 Hf2 Hlen.
  apply Forall_app in Hall as [H1 H2].
  assert (tally c1 false k1 t0 0 w) as T1 by (left; done).
  assert (tally c2 false k2 t0 0 w) as T2 by (left; done).
  destruct (serve_row_reached c1 c2 k1 k2 t0 node_env Hne Hm1 Hm2
              l1 0 w H1 T1 T2) as (Ho1 & E1 & E2); [lia |].
  destruct (serve_row_refused c1 c2 k1 k2 t0 node_env Hne Hm1 Hm2 Hh1 Hh2
              l2 _ _ _ H2 E1 E2) as [Hrest Hlen2]; [lia |].
  eexists. rewrite map_app, serve_app. cbn [snd]. rewrite Ho1.
  split; [reflexivity |]. by split.
Qed.

Lemma limiters_in_row_admit_the_smaller_quota_witness :
  ∃ rest,
    snd (serve None
           (List.map (mounted_in_row (resolve two_per_minute) (resolve one_per_auth))
              ([(quiet false a_stack 0, quiet false a_stack 1, a_request)]
               ++ [(quiet false a_stack 2, quiet false a_stack 3, a_request)]))
           empty_world)
    = List.map (λ _, Reached)
        [(quiet false a_stack 0, quiet false a_stack 1, a_request)] ++ rest
    ∧ length rest = 1%nat
    ∧ Forall too_many rest.
Proof.
  apply (limiters_in_row_admit_the_smaller_quota
           (resolve two_per_minute) (resolve one_per_auth)
           a_key "ratelimit:auth:203.0.113.7" 0 None
           [(quiet false a_stack 0, quiet false a_stack 1, a_request)]
           [(quiet false a_stack 2, quiet false a_stack 3, a_request)] empty_world);
    [discriminate | reflexivity | reflexivity | reflexivity | reflexivity
     | | reflexivity | reflexivity | reflexivity].
  repeat constructor; cbn; lia.
Defined.

(** *** A store that is connected *)

(** X14: the in-memory map stands in for a store that is not connected; a
    store that is connected limits nothing.  While [redisClient.connected]
    holds, every request is admitted: [next()] is called, the promise
    fulfils and the exceeded handler is never called, whatever count the
    store holds for the key and whether or not its [get] or [exec] fails.
    Of a failure of the store nothing is logged; the only error logged is
    one thrown by [keyGenerator].  The in-memory map is left as it is. *)
Theorem connected_store_limits_nothing (c : Config) (l : list (Env * Req)) (w : World) :
  Forall (λ x, connected x.1 = true) l →
  snd (run c l w)
  = List.map (λ x, match derived_key c x.2 with
                   | Ret _ => {| trace := [Proceed]; settled := Fulfilled |}
                   | Throw e => {| trace := [LogError e; Proceed]; settled := Fulfilled |}
                   end) l
  ∧ Forall (λ o, decision o = Admit ∧ handler_invoked o = false ∧ settled o = Fulfilled)
      (snd (run c l w))
  ∧ inMemoryCache (fst (run c l w)) = inMemoryCache w.
Proof.
  revert w. induction l as [|[env req] l IH]; intros w Hall; [by repeat split |].
  apply Forall_cons in Hall as [Hc Hall]. cbn [fst snd] in Hc.
  rewrite run_cons. cbn [fst snd List.map].
  pose proof (middleware_other_backend c env req w) as Hkeep. rewrite Hc in Hkeep.
  destruct (IH (fst (middleware c env req w)) Hall) as (-> & Hos & ->).
  assert (snd (middleware c env req w)
          = match derived_key c req with
            | Ret _ => {| trace := [Proceed]; settled := Fulfilled |}
            | Throw e => {| trace := [LogError e; Proceed]; settled := Fulfilled |}
            end) as ->.
  { destruct (derived_key c req) as [key|e] eqn:Hk.
    - by rewrite (middleware_connected _ _ _ _ key Hk Hc).
    - by rewrite middleware_unfold, (try_block_throw _ _ _ _ e Hk). }
  split; [done |]. split; [| done].
  apply Forall_cons. split; [| done].
  by destruct (derived_key c req).
Qed.

Lemma connected_store_limits_nothing_witness :
  List.map decision
    (snd (run (resolve one_per_minute)
            [(quiet true a_stack 0, a_request); (get_failing 1, a_request);
             (exec_failing 2, a_request); (quiet true a_stack 3, a_request)]
            empty_world))
  = [Admit; Admit; Admit; Admit].
Proof.
  rewrite (proj1 (connected_store_limits_nothing (resolve one_per_minute)
                    [(quiet true a_stack 0, a_request); (get_failing 1, a_request);
                     (exec_failing 2, a_request); (quiet true a_stack 3, a_request)]
                    empty_world ltac:(by repeat constructor))).
  reflexivity.
Defined.

(** *** A taken username *)

(** X15: when saving a profile fails on a unique constraint whose first
    item names the column [username], the caller is answered 409 with type
    [conflict_error] and the message ["Username already taken"], without
    details, whatever else the error carries.  A unique constraint on
    another column is handed on as it is, and [errorHandler], for which it is
    a validation error, answers 400 with type [validation_error] and one
    detail per item. *)
Theorem taken_username_response (captured : string) (error : ErrVal)
    (first : ErrItem) (others : list ErrItem) (node_env : option string) :
  e_name error = Some "SequelizeUniqueConstraintError"%string →
  e_errors error = Some (first :: others) →
  (path first = "username"%string →
   ∃ err, update_profile_catch captured error = Ret err
          ∧ r_status (errorHandler node_env err) = 409
          ∧ b_type (r_error (errorHandler node_env err)) = "conflict_error"%string
          ∧ b_message (r_error (errorHandler node_env err))
            = Some "Username already taken"%string
          ∧ b_details (r_error (errorHandler node_env err)) = None)
  ∧ (path first ≠ "username"%string →
     is_ValidationError error = true →
     update_profile_catch captured error = Ret error
     ∧ r_status (errorHandler node_env error) = 400
     ∧ b_type (r_error (errorHandler node_env error)) = "validation_error"%string
     ∧ b_details (r_error (errorHandler node_env error))
       = Some (List.map (λ it, FieldMessage (path it) (item_message it))
                 (first :: others))).
Proof.
  intros Hname Herrs. unfold update_profile_catch. rewrite Hname, Herrs.
  assert (strict_eq_str (Some "SequelizeUniqueConstraintError"%string)
            "SequelizeUniqueConstraintError" = true) as -> by reflexivity.
  split.
  - intros ->. rewrite String.eqb_refl. eexists. split; [reflexivity |].
    rewrite errorHandler_AppError by discriminate. done.
  - intros Hp Hval.
    destruct (String.eqb (path first) "username") eqn:E;
      [by apply String.eqb_eq in E |].
    split; [done |].
    unfold errorHandler, classify, map_errors. rewrite Hval, Herrs. done.
Qed.

Lemma taken_username_response_witness :
  (∃ err, update_profile_catch a_stack (unique_violation "username") = Ret err
          ∧ r_status (errorHandler None err) = 409
          ∧ b_type (r_error (errorHandler None err)) = "conflict_error"%string
          ∧ b_message (r_error (errorHandler None err))
            = Some "Username already taken"%string
          ∧ b_details (r_error (errorHandler None err)) = None)
  ∧ r_status (errorHandler None (unique_violation "email")) = 400.
Proof.
  split.
  - exact (proj1 (taken_username_response a_stack (unique_violation "username")
                    _ [] None eq_refl eq_refl) eq_refl).
  - exact (proj1 (proj2 (proj2 (taken_username_response a_stack (unique_violation "email")
                                   _ [] None eq_refl eq_refl)
                           ltac:(discriminate) eq_refl))).
Defined.
